(** * Hospital-Project: ledger, aggregation engine and round coordinator

    A shallow embedding of [blockchain_ledger.py], [smpc_engine.py] and
    [federated_learning.py], together with the properties of the
    specification that concern them. *)

From Stdlib Require Import ZArith List String Ascii Floats Lia Bool DecimalString.
From Stdlib Require Import QArith Qcanon.
From stdpp Require Import gmap strings list.

Local Open Scope Z_scope.

(** ** SHA-256 ([hashlib.sha256], FIPS 180-4)

    Words are 32-bit integers carried in [Z] with the wrap-around written
    out; a message is a list of bytes. *)
Module Sha256.

Definition wrap32 (x : Z) : Z := Z.land x 4294967295.

Definition add32 (x y : Z) : Z := wrap32 (x + y).

Definition rotr (n x : Z) : Z :=
  Z.lor (Z.shiftr x n) (wrap32 (Z.shiftl x (32 - n))).

Definition not32 (x : Z) : Z := 4294967295 - x.

Definition Ch (x y z : Z) : Z :=
  Z.lxor (Z.land x y) (Z.land (not32 x) z).

Definition Maj (x y z : Z) : Z :=
  Z.lxor (Z.lxor (Z.land x y) (Z.land x z)) (Z.land y z).

Definition Sigma0 (x : Z) : Z :=
  Z.lxor (Z.lxor (rotr 2 x) (rotr 13 x)) (rotr 22 x).

Definition Sigma1 (x : Z) : Z :=
  Z.lxor (Z.lxor (rotr 6 x) (rotr 11 x)) (rotr 25 x).

Definition sigma0 (x : Z) : Z :=
  Z.lxor (Z.lxor (rotr 7 x) (rotr 18 x)) (Z.shiftr x 3).

Definition sigma1 (x : Z) : Z :=
  Z.lxor (Z.lxor (rotr 17 x) (rotr 19 x)) (Z.shiftr x 10).

(** The largest [r] below [2 ^ bits] with [r ^ k <= n], found bit by
    bit. *)
Fixpoint root_bits (k : Z) (n : Z) (bits : nat) (r : Z) : Z :=
  match bits with
  | O => r
  | S b =>
      let c := r + 2 ^ Z.of_nat b in
      root_bits k n b (if c ^ k <=? n then c else r)
  end.

(** The first 32 bits of the fractional part of the [k]-th root of [p]. *)
Definition root_fraction (k : Z) (p : Z) : Z :=
  wrap32 (root_bits k (p * 2 ^ (32 * k)) 36 0).

Definition is_prime (p : Z) : bool :=
  (1 <? p) && forallb (fun d => negb (p mod d =? 0))
                      (map Z.of_nat (seq 2 (Z.to_nat p - 2))).

Definition primes_below (n : nat) : list Z :=
  List.filter is_prime (map Z.of_nat (seq 0 n)).

(** The round constants: cube roots of the first 64 primes. *)
Definition K : list Z :=
  Eval vm_compute in map (root_fraction 3) (firstn 64 (primes_below 312)).

(** The initial hash value: square roots of the first 8 primes. *)
Definition H0 : list Z :=
  Eval vm_compute in map (root_fraction 2) (firstn 8 (primes_below 20)).

(** Big-endian encoding of [x] on [n] bytes. *)
Fixpoint be_bytes (n : nat) (x : Z) : list Z :=
  match n with
  | O => []
  | S n' => (Z.shiftr x (8 * Z.of_nat n')) mod 256 :: be_bytes n' x
  end.

(** Padding: a [0x80] byte, zero bytes up to 56 modulo 64, then the bit
    length on 8 bytes. *)
Definition pad (msg : list Z) : list Z :=
  let len := Z.of_nat (length msg) in
  let k := Z.to_nat ((55 - len) mod 64) in
  msg ++ 128 :: repeat 0 k ++ be_bytes 8 (8 * len).

Fixpoint words (n : nat) (bs : list Z) : list Z :=
  match n with
  | O => []
  | S n' =>
      match bs with
      | a :: b :: c :: d :: rest =>
          (a * 16777216 + b * 65536 + c * 256 + d) :: words n' rest
      | _ => []
      end
  end.

(** The message schedule, most recent word first: [rev_w] holds
    W[t-1], W[t-2], ... *)
Fixpoint extend (n : nat) (rev_w : list Z) : list Z :=
  match n with
  | O => rev_w
  | S n' =>
      let w2 := nth 1 rev_w 0 in
      let w7 := nth 6 rev_w 0 in
      let w15 := nth 14 rev_w 0 in
      let w16 := nth 15 rev_w 0 in
      let w := add32 (add32 (sigma1 w2) w7) (add32 (sigma0 w15) w16) in
      extend n' (w :: rev_w)
  end.

Definition schedule (block : list Z) : list Z :=
  rev (extend 48 (rev (words 16 block))).

Record regs := Regs { ra : Z; rb : Z; rc : Z; rd : Z;
                      re : Z; rf : Z; rg : Z; rh : Z }.

Definition round (s : regs) (kw : Z * Z) : regs :=
  let '(k, w) := kw in
  let t1 := add32 (add32 (add32 (rh s) (Sigma1 (re s)))
                         (add32 (Ch (re s) (rf s) (rg s)) k)) w in
  let t2 := add32 (Sigma0 (ra s)) (Maj (ra s) (rb s) (rc s)) in
  Regs (add32 t1 t2) (ra s) (rb s) (rc s) (add32 (rd s) t1) (re s) (rf s) (rg s).

Definition regs_of (h : list Z) : regs :=
  Regs (nth 0 h 0) (nth 1 h 0) (nth 2 h 0) (nth 3 h 0)
       (nth 4 h 0) (nth 5 h 0) (nth 6 h 0) (nth 7 h 0).

Definition compress (h : list Z) (block : list Z) : list Z :=
  let s0 := regs_of h in
  let s := fold_left round (combine K (schedule block)) s0 in
  [ add32 (ra s0) (ra s); add32 (rb s0) (rb s);
    add32 (rc s0) (rc s); add32 (rd s0) (rd s);
    add32 (re s0) (re s); add32 (rf s0) (rf s);
    add32 (rg s0) (rg s); add32 (rh s0) (rh s) ].

Fixpoint blocks (n : nat) (h : list Z) (bs : list Z) : list Z :=
  match n with
  | O => h
  | S n' =>
      match bs with
      | [] => h
      | _ => blocks n' (compress h (firstn 64 bs)) (skipn 64 bs)
      end
  end.

Definition digest (msg : list Z) : list Z :=
  let p := pad msg in
  flat_map (be_bytes 4) (blocks (length p) H0 p).

Definition hex_digit (d : Z) : ascii :=
  ascii_of_nat (Z.to_nat (if d <? 10 then 48 + d else 87 + d)).

Fixpoint hex (bs : list Z) : string :=
  match bs with
  | [] => EmptyString
  | b :: rest => String (hex_digit (b / 16)) (String (hex_digit (b mod 16)) (hex rest))
  end.

Definition bytes_of_string (s : string) : list Z :=
  map (fun c => Z.of_nat (nat_of_ascii c)) (list_ascii_of_string s).

(** [hashlib.sha256(s.encode()).hexdigest()] for an ASCII string [s]. *)
Definition hexdigest (s : string) : string :=
  hex (digest (bytes_of_string s)).

End Sha256.

(** ** Python results

    An operation either returns a value or raises; the exceptions are the
    ones the three modules can meet. *)
Inductive exn : Set :=
  | ValueError
  | IndexError
  | ZeroDivisionError
  | TypeError
  | AttributeError
  | InvalidToken.

Inductive res (A : Type) : Type :=
  | Ok (a : A)
  | Raise (e : exn).

Arguments Ok {A} a.
Arguments Raise {A} e.

Definition bind {A B : Type} (r : res A) (k : A -> res B) : res B :=
  match r with
  | Ok a => k a
  | Raise e => Raise e
  end.

#[global] Instance res_bind : MBind res := fun A B k r => bind r k.
#[global] Instance res_ret : MRet res := fun A a => Ok a.

Definition is_ok {A : Type} (r : res A) : bool :=
  match r with Ok _ => true | Raise _ => false end.

(** [l[i]] for a Python list: negative indices count from the end, and an
    index outside [-len, len) raises [IndexError]. *)
Definition py_getitem {A : Type} (l : list A) (i : Z) : res A :=
  let len := Z.of_nat (length l) in
  let j := if i <? 0 then len + i else i in
  if (j <? 0) || (len <=? j) then Raise IndexError
  else match l !! Z.to_nat j with
       | Some x => Ok x
       | None => Raise IndexError
       end.

(** ** [json.dumps] on the shapes the ledger serialises

    Default separators, [ensure_ascii=True]. Characters are code points
    below 256. *)
Module Json.

Definition dquote : ascii := "034"%char.
Definition backslash : ascii := "092"%char.

Definition hex4 (n : Z) : string :=
  String (Sha256.hex_digit (n / 4096 mod 16))
    (String (Sha256.hex_digit (n / 256 mod 16))
      (String (Sha256.hex_digit (n / 16 mod 16))
        (String (Sha256.hex_digit (n mod 16)) EmptyString))).

Definition escape_char (c : ascii) : string :=
  let n := Z.of_nat (nat_of_ascii c) in
  if n =? 34 then String backslash (String dquote EmptyString)
  else if n =? 92 then String backslash (String backslash EmptyString)
  else if n =? 10 then "\n"
  else if n =? 13 then "\r"
  else if n =? 9 then "\t"
  else if n =? 8 then "\b"
  else if n =? 12 then "\f"
  else if (n <? 32) || (126 <? n) then "\u" +:+ hex4 n
  else String c EmptyString.

Fixpoint escape (s : string) : string :=
  match s with
  | EmptyString => EmptyString
  | String c rest => escape_char c +:+ escape rest
  end.

Definition str (s : string) : string :=
  String dquote (escape s +:+ String dquote EmptyString).

Definition int (z : Z) : string :=
  DecimalString.NilZero.string_of_int (Z.to_int z).

Fixpoint join (sep : string) (items : list string) : string :=
  match items with
  | [] => EmptyString
  | [x] => x
  | x :: rest => x +:+ sep +:+ join sep rest
  end.

Definition array (items : list string) : string :=
  "[" +:+ join ", " items +:+ "]".

(** An object whose (key, rendered value) pairs are given in sorted key
    order, as [sort_keys=True] emits them. *)
Definition object (fields : list (string * string)) : string :=
  "{" +:+ join ", " (map (fun kv => str (fst kv) +:+ ": " +:+ snd kv) fields) +:+ "}".

End Json.

(** ** [blockchain_ledger.py] *)
Module BlockchainLedger.

(** A transaction dictionary, as [add_transaction] builds it. *)
Record transaction : Type := Transaction {
  model_hash : string;
  user_id : Z;
  institution : string;
  tx_timestamp : string;
  transaction_hash : string
}.

(** A block dictionary. The ['hash'] entry is [None] while the block is a
    candidate, and ['previous_hash'] copies the ['hash'] entry of the
    block before. *)
Record block : Type := Block {
  block_number : Z;
  timestamp : string;
  transactions : list transaction;
  previous_hash : option string;
  hash : option string;
  nonce : Z
}.

Record ledger : Type := Ledger {
  chain : list block;
  pending_transactions : list transaction;
  difficulty : Z
}.

Definition set_hash (h : option string) (b : block) : block :=
  Block (block_number b) (timestamp b) (transactions b) (previous_hash b) h (nonce b).

Definition set_nonce (n : Z) (b : block) : block :=
  Block (block_number b) (timestamp b) (transactions b) (previous_hash b) (hash b) n.

Definition set_timestamp (t : string) (b : block) : block :=
  Block (block_number b) t (transactions b) (previous_hash b) (hash b) (nonce b).

Definition set_block_number (n : Z) (b : block) : block :=
  Block n (timestamp b) (transactions b) (previous_hash b) (hash b) (nonce b).

Definition set_transactions (txs : list transaction) (b : block) : block :=
  Block (block_number b) (timestamp b) txs (previous_hash b) (hash b) (nonce b).

Definition set_previous_hash (h : option string) (b : block) : block :=
  Block (block_number b) (timestamp b) (transactions b) h (hash b) (nonce b).

Definition dumps_opt_str (o : option string) : string :=
  match o with
  | Some s => Json.str s
  | None => "null"
  end.

Definition dumps_transaction (t : transaction) : string :=
  Json.object
    [ ("institution", Json.str (institution t));
      ("model_hash", Json.str (model_hash t));
      ("timestamp", Json.str (tx_timestamp t));
      ("transaction_hash", Json.str (transaction_hash t));
      ("user_id", Json.int (user_id t)) ].

(** [json.dumps(block_copy, sort_keys=True, default=str)] once ['hash']
    has been popped. *)
Definition dumps_block_copy (b : block) : string :=
  Json.object
    [ ("block_number", Json.int (block_number b));
      ("nonce", Json.int (nonce b));
      ("previous_hash", dumps_opt_str (previous_hash b));
      ("timestamp", Json.str (timestamp b));
      ("transactions", Json.array (map dumps_transaction (transactions b))) ].

Definition _calculate_hash (b : block) : string :=
  Sha256.hexdigest (dumps_block_copy b).

(** [now] stands for [datetime.utcnow().isoformat()]. *)
Definition _create_genesis_block (now : string) (l : ledger) : ledger :=
  let genesis_block := Block 0 now [] (Some "0"%string) None 0 in
  let genesis_block := set_hash (Some (_calculate_hash genesis_block)) genesis_block in
  Ledger (chain l ++ [genesis_block]) (pending_transactions l) (difficulty l).

Definition init (now : string) : ledger :=
  _create_genesis_block now (Ledger [] [] 2).

Definition _calculate_transaction_hash (now : string) (mh : string) (uid : Z) : string :=
  Sha256.hexdigest (mh +:+ Json.int uid +:+ now).

(** The clock is read twice: for the ['timestamp'] entry, then inside
    [_calculate_transaction_hash]. *)
Definition add_transaction (now1 now2 : string) (mh : string) (uid : Z) (inst : string)
    (l : ledger) : transaction * ledger :=
  let t := Transaction mh uid inst now1 (_calculate_transaction_hash now2 mh uid) in
  (t, Ledger (chain l) (pending_transactions l ++ [t]) (difficulty l)).

(** ['0' * difficulty] *)
Definition zeros (d : Z) : string :=
  string_of_list_ascii (repeat "0"%char (Z.to_nat d)).

Definition meets_difficulty (d : Z) (h : string) : bool :=
  String.prefix (zeros d) h.

(** The [while] loop of [_proof_of_work]; [None] when [fuel] iterations do
    not reach a hash with the required prefix. *)
Fixpoint pow_loop (fuel : nat) (d : Z) (block_copy : block) (n : Z) (hash_value : string)
    : option string :=
  if meets_difficulty d hash_value then Some hash_value
  else match fuel with
       | O => None
       | S fuel' =>
           let n := n + 1 in
           let block_copy := set_nonce n block_copy in
           pow_loop fuel' d block_copy n (_calculate_hash block_copy)
       end.

Definition _proof_of_work (fuel : nat) (d : Z) (b : block) : option string :=
  let block_copy := set_hash None b in
  pow_loop fuel d block_copy 0 (_calculate_hash b).

(** The outer [option] is [None] when proof-of-work is still running after
    [fuel] iterations. *)
Definition mine_block (fuel : nat) (now : string) (l : ledger)
    : option (res (option block) * ledger) :=
  match pending_transactions l with
  | [] => Some (Ok None, l)
  | _ =>
      match py_getitem (chain l) (-1) with
      | Raise e => Some (Raise e, l)
      | Ok last_block =>
          let new_block :=
            Block (Z.of_nat (length (chain l))) now (pending_transactions l)
                  (hash last_block) None 0 in
          match _proof_of_work fuel (difficulty l) new_block with
          | None => None
          | Some h =>
              let new_block := set_hash (Some h) new_block in
              Some (Ok (Some new_block),
                    Ledger (chain l ++ [new_block]) [] (difficulty l))
          end
      end
  end.

Definition _verify_block_integrity (b : block) : bool :=
  let hash_to_verify := hash b in
  let calculated_hash := _calculate_hash (set_hash None b) in
  bool_decide (hash_to_verify = Some calculated_hash).

Record results : Type := Results {
  valid : bool;
  total_blocks : Z;
  invalid_blocks : list Z;
  broken_links : list Z
}.

(** One iteration of the [for i in range(1, len(self.chain))] loop. *)
Definition verify_step (c : list block) (r : results) (i : nat) : results :=
  match c !! i, c !! (i - 1)%nat with
  | Some current_block, Some previous_block =>
      let r :=
        if negb (_verify_block_integrity current_block)
        then Results false (total_blocks r) (invalid_blocks r ++ [Z.of_nat i]) (broken_links r)
        else r in
      if negb (bool_decide (previous_hash current_block = hash previous_block))
      then Results false (total_blocks r) (invalid_blocks r) (broken_links r ++ [Z.of_nat i])
      else r
  | _, _ => r
  end.

Definition verify_chain_integrity (l : ledger) : results :=
  let r := Results true (Z.of_nat (length (chain l))) [] [] in
  fold_left (verify_step (chain l)) (seq 1 (length (chain l) - 1)) r.

Definition get_block (l : ledger) (n : Z) : res (option block) :=
  if n <? Z.of_nat (length (chain l))
  then b ← py_getitem (chain l) n; mret (Some b)
  else Ok None.

(** The inner loop of [verify_hash] over the transactions of one block:
    a match in a block that fails its own check does not end the scan. *)
Fixpoint verify_hash_in (mh : string) (b : block) (txs : list transaction) : bool :=
  match txs with
  | [] => false
  | t :: rest =>
      if bool_decide (model_hash t = mh)
      then (if _verify_block_integrity b then true else verify_hash_in mh b rest)
      else verify_hash_in mh b rest
  end.

Fixpoint verify_hash_from (mh : string) (bs : list block) : bool :=
  match bs with
  | [] => false
  | b :: rest =>
      if verify_hash_in mh b (transactions b) then true else verify_hash_from mh rest
  end.

Definition verify_hash (mh : string) (l : ledger) : bool :=
  verify_hash_from mh (chain l).

(** An entry of the list [get_transaction_history] returns. *)
Record history_entry : Type := HistoryEntry {
  entry_block_number : Z;
  entry_block_hash : option string;
  entry_timestamp : string;
  entry_transaction : transaction
}.

Definition get_transaction_history (mh : string) (l : ledger) : list history_entry :=
  flat_map
    (fun b =>
       map (fun t => HistoryEntry (block_number b) (hash b) (timestamp b) t)
           (List.filter (fun t => bool_decide (model_hash t = mh)) (transactions b)))
    (chain l).

Record summary : Type := Summary {
  summary_total_blocks : Z;
  total_transactions : Z;
  summary_pending_transactions : Z;
  chain_valid : bool;
  latest_block : option block
}.

Definition get_ledger_summary (l : ledger) : summary :=
  let total := fold_left Z.add (map (fun b => Z.of_nat (length (transactions b))) (chain l)) 0 in
  Summary (Z.of_nat (length (chain l))) total
          (Z.of_nat (length (pending_transactions l)))
          (valid (verify_chain_integrity l))
          (last (chain l)).

Definition get_next_block_number (l : ledger) : Z :=
  Z.of_nat (length (chain l)).

End BlockchainLedger.

(** ** Numbers

    The coordinator and the engine compute on Python floats. Their code
    is written once over the operations it uses and read at two carriers:
    [float], the binary64 numbers the program runs on, and [Qc], exact
    rational arithmetic, against which "mean" and "weighted mean" are
    stated without rounding. *)
Class Num (F : Type) : Type := {
  fzero : F;
  fadd : F -> F -> F;
  fsub : F -> F -> F;
  fmul : F -> F -> F;
  fdiv : F -> F -> F;
  fltb : F -> F -> bool;
  feqb : F -> F -> bool;
  (** [float(n)] for an integer [n] *)
  of_int : Z -> F;
  (** neither NaN nor an infinity *)
  ffinite : F -> bool
}.

#[global] Instance float_num : Num float := {
  fzero := PrimFloat.zero;
  fadd := PrimFloat.add;
  fsub := PrimFloat.sub;
  fmul := PrimFloat.mul;
  fdiv := PrimFloat.div;
  fltb := PrimFloat.ltb;
  feqb := PrimFloat.eqb;
  of_int := fun z => SF2Prim (binary_normalize prec emax z 0 false);
  ffinite := PrimFloat.is_finite
}.

#[global] Instance Qc_num : Num Qc := {
  fzero := Q2Qc 0;
  fadd := Qcplus;
  fsub := Qcminus;
  fmul := Qcmult;
  fdiv := Qcdiv;
  fltb := fun x y => bool_decide (x < y)%Qc;
  feqb := fun x y => bool_decide (x = y);
  of_int := fun z => Q2Qc (inject_Z z);
  ffinite := fun _ => true
}.

Section Python.
Context {F : Type} `{Num F}.

(** [a / b] on Python floats *)
Definition py_truediv (a b : F) : res F :=
  if feqb b fzero then Raise ZeroDivisionError else Ok (fdiv a b).

(** [a / b] on Python integers; the quotient is rounded once, which
    [fdiv] on the converted operands does for operands below 2^53. *)
Definition py_int_truediv (a b : Z) : res F :=
  if b =? 0 then Raise ZeroDivisionError else Ok (fdiv (of_int a) (of_int b)).

(** [sum(l)]: starts from the integer 0 and adds in list order (CPython
    3.12 and later carry a compensation term besides, which is 0 on the
    sums evaluated below). *)
Definition py_sum (l : list F) : F := fold_left fadd l fzero.

(** [max(x :: xs)]: keeps the first of the greatest, comparing with [>]. *)
Definition py_max (x : F) (xs : list F) : F :=
  fold_left (fun m v => if fltb m v then v else m) xs x.

(** [range(a, b)] *)
Definition py_range (a b : Z) : list Z :=
  map (fun k => a + Z.of_nat k) (seq 0 (Z.to_nat (b - a))).

(** [[f(x) for x in l]] where [f] may raise *)
Fixpoint traverse {A B : Type} (f : A -> res B) (l : list A) : res (list B) :=
  match l with
  | [] => Ok []
  | x :: rest => y ← f x; ys ← traverse f rest; mret (y :: ys)
  end.

(** *** NumPy on vectors and matrices

    A matrix is the list of its rows. Reductions add in input order. *)

(** [np.array(rows)] for a list of lists: the rows must share a length. *)
Definition np_array (rows : list (list F)) : res (list (list F)) :=
  match rows with
  | [] => Ok []
  | r :: rs =>
      if forallb (fun r' => Nat.eqb (length r') (length r)) rs
      then Ok rows else Raise ValueError
  end.

(** [a.sum(axis=0)] *)
Definition np_sum_axis0 (rows : list (list F)) : list F :=
  match rows with
  | [] => []
  | r :: rs => fold_left (zip_with fadd) rs r
  end.

(** [w.sum()] for a vector *)
Definition np_sum (w : list F) : F :=
  match w with
  | [] => fzero
  | x :: xs => fold_left fadd xs x
  end.

(** [np.mean(a, axis=0)] *)
Definition np_mean_axis0 (rows : list (list F)) : list F :=
  map (fun s => fdiv s (of_int (Z.of_nat (length rows)))) (np_sum_axis0 rows).

(** [np.average(a, axis=0, weights=w)] for a matrix [a] and a vector [w] *)
Definition np_average_axis0 (rows : list (list F)) (w : list F) : res (list F) :=
  if negb (Nat.eqb (length w) (length rows)) then Raise ValueError
  else
    let scl := np_sum w in
    if feqb scl fzero then Raise ZeroDivisionError
    else
      let weighted := zip_with (fun row wi => map (fun a => fmul a wi) row) rows w in
      Ok (map (fun s => fdiv s scl) (np_sum_axis0 weighted)).

End Python.

(** ** [federated_learning.py] *)
Module FederatedLearning.
Section WithNum.
Context {F : Type} `{Num F}.

(** An entry of [self.participants]. The keys ['last_accuracy'] and
    ['last_update'] are absent until the first update. *)
Record participant : Type := Participant {
  institution : string;
  status : string;
  registered_at : string;
  rounds_participated : Z;
  model_updates_submitted : Z;
  last_accuracy : option F;
  last_update : option string
}.

Record orchestrator : Type := Orchestrator {
  current_round : Z;
  participants : gmap string participant;
  global_model : option (list F);
  training_history : list (list F)
}.

Definition init : orchestrator := Orchestrator 0 ∅ None [].

Definition set_participants (ps : gmap string participant) (o : orchestrator) : orchestrator :=
  Orchestrator (current_round o) ps (global_model o) (training_history o).

Record round_info : Type := RoundInfo {
  round_number : Z;
  algorithm : string;
  round_status : string;
  round_timestamp : string;
  round_participants : Z
}.

Definition initialize_round (now : string) (n : Z) (alg : string) (o : orchestrator)
    : round_info * orchestrator :=
  let o := Orchestrator n (participants o) (global_model o) (training_history o) in
  (RoundInfo n alg "initialized" now (Z.of_nat (size (participants o))), o).

(** The dictionaries [register_participant] returns. *)
Inductive registration : Type :=
  | already_registered
  | registered (participant_id : string).

Definition register_participant (now : string) (participant_id institution_name : string)
    (o : orchestrator) : registration * orchestrator :=
  match participants o !! participant_id with
  | Some _ => (already_registered, o)
  | None =>
      let p := Participant institution_name "active" now 0 0 None None in
      (registered participant_id, set_participants (<[participant_id := p]> (participants o)) o)
  end.

Definition update_participant_stats (now : string) (participant_id : string) (accuracy : F)
    (o : orchestrator) : res participant * orchestrator :=
  match participants o !! participant_id with
  | None => (Raise ValueError, o)
  | Some p =>
      let p := Participant (institution p) (status p) (registered_at p)
                 (rounds_participated p + 1) (model_updates_submitted p + 1)
                 (Some accuracy) (Some now) in
      (Ok p, set_participants (<[participant_id := p]> (participants o)) o)
  end.

(** The views [get_participant_status] returns. An empty identifier is
    falsy and selects the overview, as an omitted one does. *)
Inductive status_view : Type :=
  | participant_not_found
  | one_participant (p : participant)
  | overview (total_participants : Z) (ps : gmap string participant) (round : Z).

Definition get_participant_status (participant_id : option string) (o : orchestrator)
    : status_view :=
  match participant_id with
  | Some id =>
      if bool_decide (id = EmptyString)
      then overview (Z.of_nat (size (participants o))) (participants o) (current_round o)
      else match participants o !! id with
           | None => participant_not_found
           | Some p => one_participant p
           end
  | None => overview (Z.of_nat (size (participants o))) (participants o) (current_round o)
  end.

Inductive removal : Type :=
  | participant_removed
  | removal_not_found.

Definition remove_participant (participant_id : string) (o : orchestrator)
    : removal * orchestrator :=
  match participants o !! participant_id with
  | Some _ => (participant_removed, set_participants (delete participant_id (participants o)) o)
  | None => (removal_not_found, o)
  end.

Definition federated_averaging (model_weights_list : list (list F)) (weights : option (list F))
    : res (list F) :=
  match model_weights_list with
  | [] => Raise ValueError
  | _ =>
      model_weights_array ← np_array model_weights_list;
      match weights with
      | None => Ok (np_mean_axis0 model_weights_array)
      | Some weights =>
          let total := np_sum weights in
          let weights := map (fun w => fdiv w total) weights in
          np_average_axis0 model_weights_array weights
      end
  end.

Definition weighted_averaging (model_weights_list : list (list F)) (data_sizes : list Z)
    : res (list F) :=
  let total_size := fold_left Z.add data_sizes 0 in
  weights ← traverse (fun size => py_int_truediv size total_size) data_sizes;
  federated_averaging model_weights_list (Some weights).

(** The dictionaries [check_convergence] returns. *)
Inductive convergence : Type :=
  | not_enough_history
  | model_converged (rounds : Z) (final_accuracy : F)
  | still_improving (max_improvement : F) (current_accuracy : F).

Definition converged (c : convergence) : bool :=
  match c with
  | model_converged _ _ => true
  | _ => false
  end.

(** The loop that fills [recent_improvements]. *)
Definition recent_improvements (accuracy_history : list F) (patience : Z) : res (list F) :=
  let len := Z.of_nat (length accuracy_history) in
  fold_left
    (fun acc i =>
       improvements ← acc;
       if 0 <? i then
         a ← py_getitem accuracy_history i;
         b ← py_getitem accuracy_history (i - 1);
         mret (improvements ++ [fsub a b])
       else mret improvements)
    (py_range (len - patience) len) (Ok []).

Definition check_convergence (accuracy_history : list F) (threshold : F) (patience : Z)
    : res convergence :=
  let len := Z.of_nat (length accuracy_history) in
  if len <? patience then Ok not_enough_history
  else
    improvements ← recent_improvements accuracy_history patience;
    let max_improvement :=
      match improvements with
      | [] => fzero
      | x :: xs => py_max x xs
      end in
    if fltb max_improvement threshold then
      final_accuracy ← py_getitem accuracy_history (-1);
      mret (model_converged len final_accuracy)
    else
      current_accuracy ← py_getitem accuracy_history (-1);
      mret (still_improving max_improvement current_accuracy).

End WithNum.

Arguments participant F : clear implicits.
Arguments orchestrator F : clear implicits.
Arguments convergence F : clear implicits.
Arguments status_view F : clear implicits.

End FederatedLearning.

(** ** [smpc_engine.py] *)
Module SMPCEngine.

(** The library calls of the engine: [json], [cryptography.fernet],
    [base64], and NumPy's random generator. [text] stands for the strings
    and byte strings handed from one call to the next; the engine never
    looks inside them. *)
Record library (params : Type) (F : Type) : Type := Library {
  text : Type;
  key : Type;
  (** the IV and clock reading [Fernet.encrypt] draws *)
  entropy : Type;
  (** the state of [np.random] *)
  rng : Type;
  json_dumps : params -> text;
  json_loads : text -> res params;
  fernet_encrypt : key -> entropy -> text -> text;
  fernet_decrypt : key -> text -> res text;
  b64encode : text -> text;
  b64decode : text -> res text;
  (** [np.random.laplace(0, scale)] *)
  laplace : rng -> F -> res (F * rng)
}.

Arguments text {params F} l.
Arguments key {params F} l.
Arguments entropy {params F} l.
Arguments rng {params F} l.
Arguments json_dumps {params F} l.
Arguments json_loads {params F} l.
Arguments fernet_encrypt {params F} l.
Arguments fernet_decrypt {params F} l.
Arguments b64encode {params F} l.
Arguments b64decode {params F} l.
Arguments laplace {params F} l.

Section WithNum.
Context {F : Type} `{Num F}.

(** [O] is the type of the Python values that are neither numbers nor
    lists (strings, [None], nested dictionaries). *)
Context {O : Type}.

(** A number: [bool] is a subclass of [int]. *)
Inductive num : Type :=
  | NBool (b : bool)
  | NInt (z : Z)
  | NFloat (f : F).

Definition to_float (n : num) : F :=
  match n with
  | NBool b => of_int (if b then 1 else 0)
  | NInt z => of_int z
  | NFloat f => f
  end.

(** A parameter value: a number, a list of numbers, or something else.
    A payload is a mapping from names to such values, the shape the
    engine is handed for encryption; lists nested in lists are not part
    of it. *)
Inductive pval : Type :=
  | PNum (n : num)
  | PList (l : list num)
  | POther (o : O).

Context (L : library (gmap string pval) F).

(** [float(o)] on a value that is not a number: a string is parsed, the
    rest raises. *)
Context (float_of_other : O -> res F).

Record engine : Type := Engine {
  master_key : key L
}.

(** Methods of the engine: they read [self] and may raise. *)
Definition M (A : Type) : Type := engine -> res A * engine.

Definition ret {A : Type} (a : A) : M A := fun e => (Ok a, e).

Definition raise {A : Type} (x : exn) : M A := fun e => (Raise x, e).

Definition lift {A : Type} (r : res A) : M A := fun e => (r, e).

Definition mbind {A B : Type} (m : M A) (k : A -> M B) : M B :=
  fun e =>
    match m e with
    | (Ok a, e') => k a e'
    | (Raise x, e') => (Raise x, e')
    end.

Definition cipher_suite : M (key L) := fun e => (Ok (master_key e), e).

Definition encrypt_parameters (r : entropy L) (parameters : gmap string pval) : M (text L) :=
  let json_data := json_dumps L parameters in
  mbind cipher_suite (fun k =>
  let encrypted_data := fernet_encrypt L k r json_data in
  let encrypted_str := b64encode L encrypted_data in
  ret encrypted_str).

Definition decrypt_parameters (encrypted_data : text L) : M (gmap string pval) :=
  mbind (lift (b64decode L encrypted_data)) (fun encrypted_bytes =>
  mbind cipher_suite (fun k =>
  mbind (lift (fernet_decrypt L k encrypted_bytes)) (fun decrypted_data =>
  lift (json_loads L decrypted_data)))).

(** An element of [param_values]: a float or a NumPy vector. *)
Inductive pv : Type :=
  | VFloat (f : F)
  | VArray (l : list F).

(** An averaged parameter: a float, a list ([tolist()]), or the NumPy
    vector that [sum] yields when a scalar meets a list. *)
Inductive aval : Type :=
  | AFloat (f : F)
  | AList (l : list F)
  | ANdarray (l : list F).

(** The inner loop of [_average_parameters] for one name. *)
Fixpoint param_values (param_name : string) (parameters_list : list (gmap string pval))
    : res (list pv) :=
  match parameters_list with
  | [] => Ok []
  | params :: rest =>
      match params !! param_name with
      | None => param_values param_name rest
      | Some value =>
          v ← match value with
              | PList l => Ok (VArray (map to_float l))
              | PNum n => Ok (VFloat (to_float n))
              | POther o => f ← float_of_other o; mret (VFloat f)
              end;
          vs ← param_values param_name rest;
          mret (v :: vs)
      end
  end.

(** [a + b] where either side may be a vector: NumPy broadcasts a scalar
    or a vector of length 1. *)
Definition pv_add (a b : pv) : res pv :=
  match a, b with
  | VFloat x, VFloat y => Ok (VFloat (fadd x y))
  | VFloat x, VArray l => Ok (VArray (map (fadd x) l))
  | VArray l, VFloat y => Ok (VArray (map (fun a => fadd a y) l))
  | VArray l1, VArray l2 =>
      if Nat.eqb (length l1) (length l2) then Ok (VArray (zip_with fadd l1 l2))
      else match l1, l2 with
           | [x], _ => Ok (VArray (map (fadd x) l2))
           | _, [y] => Ok (VArray (map (fun a => fadd a y) l1))
           | _, _ => Raise ValueError
           end
  end.

(** [sum(param_values)] *)
Definition sum_values (vs : list pv) : res pv :=
  fold_left (fun acc v => a ← acc; pv_add a v) vs (Ok (VFloat fzero)).

(** [np.array(param_values)] inside [np.mean]: every element must be a
    vector, all of one length. *)
Definition rows_of (vs : list pv) : res (list (list F)) :=
  rows ← traverse (fun v => match v with
                            | VArray l => Ok l
                            | VFloat _ => Raise ValueError
                            end) vs;
  np_array rows.

(** The body of the outer loop: [None] when [param_values] is empty. *)
Definition average_param (param_name : string) (parameters_list : list (gmap string pval))
    : res (option aval) :=
  vs ← param_values param_name parameters_list;
  match vs with
  | [] => Ok None
  | VArray _ :: _ =>
      rows ← rows_of vs;
      mret (Some (AList (np_mean_axis0 rows)))
  | VFloat _ :: _ =>
      s ← sum_values vs;
      let n := of_int (Z.of_nat (length vs)) in
      match s with
      | VFloat x => mret (Some (AFloat (fdiv x n)))
      | VArray l => mret (Some (ANdarray (map (fun a => fdiv a n) l)))
      end
  end.

(** Gathers the per-name outcomes: the first exception met aborts the
    call; otherwise every name with an average is set. Python visits the
    names in insertion order, the model in the order of [map_to_list]:
    the order only decides which exception surfaces when several names
    raise. *)
Definition gather {A : Type} (m : gmap string (res (option A))) : res (gmap string A) :=
  match list_find (fun kv => is_ok (snd kv) = false) (map_to_list m) with
  | Some (_, (_, Raise x)) => Raise x
  | _ => Ok (omap (fun r => match r with Ok o => o | Raise _ => None end) m)
  end.

Definition _average_parameters (parameters_list : list (gmap string pval))
    : res (gmap string aval) :=
  match parameters_list with
  | [] => Ok ∅
  | first :: _ =>
      gather (map_imap (fun param_name _ => Some (average_param param_name parameters_list)) first)
  end.

(** The loop that decrypts every payload. *)
Fixpoint decrypt_all (encrypted_parameters_list : list (text L)) : M (list (gmap string pval)) :=
  match encrypted_parameters_list with
  | [] => ret []
  | encrypted_params :: rest =>
      mbind (decrypt_parameters encrypted_params) (fun decrypted =>
      mbind (decrypt_all rest) (fun decrypted_list =>
      ret (decrypted :: decrypted_list)))
  end.

Definition secure_aggregate (encrypted_parameters_list : list (text L))
    : M (gmap string aval) :=
  match encrypted_parameters_list with
  | [] => raise ValueError
  | _ =>
      mbind (decrypt_all encrypted_parameters_list) (fun decrypted_list =>
      lift (_average_parameters decrypted_list))
  end.

(** [[v + np.random.laplace(0, scale) for v in value]] *)
Fixpoint noisy_list (scale : F) (value : list num) (g : rng L) : res (list num * rng L) :=
  match value with
  | [] => Ok ([], g)
  | v :: rest =>
      '(noise, g) ← laplace L g scale;
      '(rest, g) ← noisy_list scale rest g;
      mret (NFloat (fadd (to_float v) noise) :: rest, g)
  end.

(** The loop over [parameters.items()]; the order of the items decides
    which draw of the generator lands on which name, nothing else. *)
Fixpoint noisy_items (scale : F) (items : list (string * pval)) (g : rng L)
    : res (list (string * pval) * rng L) :=
  match items with
  | [] => Ok ([], g)
  | (k, value) :: rest =>
      '(noisy, g) ← match value with
                    | PNum n =>
                        '(noise, g) ← laplace L g scale;
                        mret (PNum (NFloat (fadd (to_float n) noise)), g)
                    | PList l =>
                        '(noisy_value, g) ← noisy_list scale l g;
                        mret (PList noisy_value, g)
                    | POther o => mret (POther o, g)
                    end;
      '(rest, g) ← noisy_items scale rest g;
      mret ((k, noisy) :: rest, g)
  end.

Definition add_differential_privacy_noise (parameters : gmap string pval)
    (epsilon sensitivity : F) (g : rng L) : res (gmap string pval * rng L) :=
  scale ← py_truediv sensitivity epsilon;
  '(items, g) ← noisy_items scale (map_to_list parameters) g;
  mret (list_to_map items, g).

End WithNum.

Arguments num F : clear implicits.
Arguments pval F O : clear implicits.
Arguments pv F : clear implicits.
Arguments aval F : clear implicits.

(** *** Hashes, commitments and proofs

    [generate_hash] serialises a dictionary or a list with
    [json.dumps(data, sort_keys=True)] and any other value that is not a
    string with [str]; both are taken as given. The text hashed is ASCII,
    as base64 payloads and the output of [json.dumps] are. *)
Section Hashing.
Context {J Obj : Type}.
Context (json_dumps_sorted : J -> string).
Context (py_str : Obj -> string).

Inductive data : Type :=
  | DStr (s : string)
  | DJson (j : J)
  | DObj (o : Obj).

Definition generate_hash (d : data) : string :=
  let d :=
    match d with
    | DJson j => json_dumps_sorted j
    | DStr s => s
    | DObj o => py_str o
    end in
  Sha256.hexdigest d.

Definition verify_hash (d : data) (expected_hash : string) : bool :=
  let computed_hash := generate_hash d in
  bool_decide (computed_hash = expected_hash).

Definition create_commitment (d : data) : string := generate_hash d.

Record zk_proof : Type := ZkProof {
  proof_commitment : string;
  proof_data_hash : string;
  proof_valid : bool;
  proof_timestamp : string
}.

(** [urandom] stands for [str(os.urandom(32))]. *)
Definition create_zero_knowledge_proof (urandom : string) (d : data) (commitment : string)
    : zk_proof :=
  let data_hash := generate_hash d in
  let is_valid := bool_decide (data_hash = commitment) in
  ZkProof commitment data_hash is_valid
          (String.substring 0 16 (Sha256.hexdigest urandom)).

End Hashing.

Arguments data J Obj : clear implicits.

End SMPCEngine.

(** ** Tampering with a stored chain, and what the verification pass sees *)
Section Tamper.
Import BlockchainLedger.

(** Replaces block [i] of the chain by [f] of it: a stored field mutated
    behind the ledger's back. *)
Definition mutate (i : nat) (f : block -> block) (l : ledger) : ledger :=
  Ledger (alter f i (chain l)) (pending_transactions l) (difficulty l).

(** What the two tests of the loop body find at index [i]. *)
Definition self_check_fails (c : list block) (i : nat) : bool :=
  match c !! i, c !! (i - 1)%nat with
  | Some cur, Some _ => negb (_verify_block_integrity cur)
  | _, _ => false
  end.

Definition link_fails (c : list block) (i : nat) : bool :=
  match c !! i, c !! (i - 1)%nat with
  | Some cur, Some prev => negb (bool_decide (previous_hash cur = hash prev))
  | _, _ => false
  end.

End Tamper.

(** ** Ledgers the operations produce on concrete inputs *)
Module Example.
Import BlockchainLedger.

Definition genesis : block :=
  Block 0 "2024-01-01T00:00:00" [] (Some "0"%string)
    (Some "66e4add70649d5ddb21bbf8bbacb243849b2baea623193dd8a80fb191d3ccd5f"%string) 0.

Definition tx1 : transaction :=
  Transaction "71ba379fb295ca37754deadd175c747b02b0350cca98776ca8bcf3b87bde8abf"
    7 "City Hospital" "2024-01-01T00:01:00"
    "665c62d381d7afc90a5ab085434795f8c47f5ae2bc4028a289cef1f9c86f0b07".

Definition tx2 : transaction :=
  Transaction "e780c26d329c52267504107ca259b6c76179a38807969ec226753452f8b5809f"
    8 "Central Medical Center" "2024-01-01T00:06:00"
    "7c8cc205c422836c40ca0f806f482840796f9ae2f317feabd70fc7b413a331b6".

(** A fresh ledger, then one pending transaction. *)
Definition fresh : ledger := Ledger [genesis] [] 2.
Definition pending1 : ledger := Ledger [genesis] [tx1] 2.

(** Mined at a time where three increments of the nonce are needed. *)
Definition skewed_block : block :=
  Block 1 "2024-01-01T00:05:00.000124" [tx1] (hash genesis)
    (Some "0066078d3ed78d8ddf0a6cce18ba4da22a6812f5e490c1b29e6ab65d0b27d4a8"%string) 0.

Definition skewed : ledger := Ledger [genesis; skewed_block] [] 2.

(** Mined at times where the first candidate already meets the
    difficulty. *)
Definition block1 : block :=
  Block 1 "2024-01-01T00:05:00.000098" [tx1] (hash genesis)
    (Some "0073b4bab4add733b56a7b28932a22e18e587580beffa1ac18d27c4e93392064"%string) 0.

Definition block2 : block :=
  Block 2 "2024-01-01T00:10:00.000025" [tx2] (hash block1)
    (Some "00e87cd25eaecfb2f0d777b3a03bb61075d75742ea53462431b08c6c0aed5cce"%string) 0.

Definition sealed1 : ledger := Ledger [genesis; block1] [] 2.
Definition pending2 : ledger := Ledger [genesis; block1] [tx2] 2.
Definition sealed2 : ledger := Ledger [genesis; block1; block2] [] 2.

End Example.

(** ** The specification's words, for comparison with the code *)
Module Spec.
Section WithNum.
Import SMPCEngine.
Context {F : Type} `{Num F} {O : Type}.

(** All round-over-round deltas of a history: entry [k + 1] minus
    entry [k]. *)
Definition deltas (history : list F) : list F :=
  zip_with fsub (tail history) history.

(** The deltas that end at one of the most recent [patience] entries:
    the last [min patience (len - 1)] of all deltas. *)
Definition recent_deltas (history : list F) (patience : Z) : list F :=
  let all := deltas history in
  let keep := Z.to_nat (Z.min patience (Z.of_nat (length all))) in
  drop (length all - keep) all.

(** The greatest of a list of deltas, 0 when there is none. *)
Definition max_or_zero (l : list F) : F :=
  match l with
  | [] => fzero
  | x :: xs => py_max x xs
  end.

(** The sum of the vectors [vs] scaled by the weights [ws], by
    coordinate. *)
Definition weighted_sum (ws : list F) (vs : list (list F)) : list F :=
  map (fun j => fold_right fadd fzero
                  (zip_with (fun w v => fmul (default fzero (v !! j)) w) ws vs))
      (seq 0 (length (default [] (head vs)))).

(** The values the payloads that contain [name] give it, in payload
    order. *)
Definition present (name : string) (ps : list (gmap string (pval F O))) : list (pval F O) :=
  omap (fun p => p !! name) ps.

(** The arithmetic mean of a list of numbers, added in list order. *)
Definition mean (xs : list F) : F :=
  fdiv (py_sum xs) (of_int (Z.of_nat (length xs))).

(** How noise may change a value: a number becomes a float, a list keeps
    its length, anything else is carried over. *)
Definition perturbed (v v' : pval F O) : Prop :=
  match v with
  | PNum _ => exists f, v' = PNum (NFloat f)
  | PList l => exists l', v' = PList l' /\ length l' = length l
  | POther o => v' = POther o
  end.

End WithNum.
End Spec.

(** ** Readings of the loops, used in the proofs *)
Section Readings.
Import SMPCEngine.
Context {F : Type} `{Num F} {O : Type}.
Context (float_of_other : O -> res F).

(** The delta the loop of [check_convergence] appends at index [i]. *)
Definition delta_at (h : list F) (i : Z) : F :=
  match h !! Z.to_nat i, h !! Z.to_nat (i - 1) with
  | Some a, Some b => fsub a b
  | _, _ => fzero
  end.

(** The average a name ends with, if any. *)
Definition outcome {A : Type} (r : res (option A)) : option A :=
  match r with Ok o => o | Raise _ => None end.

(** [float(value)], or the vector of a list. *)
Definition value_of (v : pval F O) : res (pv F) :=
  match v with
  | PList l => Ok (VArray (map to_float l))
  | PNum n => Ok (VFloat (to_float n))
  | POther o => f ← float_of_other o; mret (VFloat f)
  end.

End Readings.

(** Sums and columns in exact arithmetic. *)
Definition Qsum (l : list Qc) : Qc := fold_right Qcplus (Q2Qc 0) l.

(** Column [j] of a matrix, 0 where a row is too short. *)
Definition column (j : nat) (rows : list (list Qc)) : list Qc :=
  map (fun r => default (Q2Qc 0) (r !! j)) rows.

(** ** Sequences of coordinator calls *)
Module Trace.
Section WithNum.
Import FederatedLearning.
Context {F : Type} `{Num F}.

(** The calls that write the coordinator's state, with the clock reading
    each of them takes. *)
Inductive call : Type :=
  | InitializeRound (now : string) (n : Z) (alg : string)
  | Register (now : string) (id inst : string)
  | UpdateStats (now : string) (id : string) (accuracy : F)
  | Remove (id : string).

Definition step (o : orchestrator F) (c : call) : orchestrator F :=
  match c with
  | InitializeRound now n alg => snd (initialize_round now n alg o)
  | Register now id inst => snd (register_participant now id inst o)
  | UpdateStats now id accuracy => snd (update_participant_stats now id accuracy o)
  | Remove id => snd (remove_participant id o)
  end.

Definition run (cs : list call) (o : orchestrator F) : orchestrator F :=
  fold_left step cs o.

Definition removes (id : string) (c : call) : Prop :=
  match c with
  | Remove id' => id' = id
  | _ => False
  end.

End WithNum.
Arguments call F : clear implicits.
End Trace.

(** ** What the engine relies on from its libraries *)
Module Contract.
Section WithNum.
Import SMPCEngine.
Context {F : Type} `{Num F} {O : Type}.

Definition finite_num (n : num F) : Prop :=
  match n with
  | NFloat f => ffinite f = true
  | _ => True
  end.

(** A finite numeric scalar or a sequence of finite numbers. *)
Definition numeric_value (v : pval F O) : Prop :=
  match v with
  | PNum n => finite_num n
  | PList l => Forall finite_num l
  | POther _ => False
  end.

Definition numeric_params (p : gmap string (pval F O)) : Prop :=
  map_Forall (fun _ v => numeric_value v) p.

(** [json.loads] inverts [json.dumps] on finite numeric mappings,
    [Fernet.decrypt] inverts [Fernet.encrypt] under the same key whatever
    the IV, and [b64decode] inverts [b64encode]. *)
Record holds (L : library (gmap string (pval F O)) F) : Prop := Holds {
  json_roundtrip : forall p, numeric_params p -> json_loads L (json_dumps L p) = Ok p;
  fernet_roundtrip : forall k r t, fernet_decrypt L k (fernet_encrypt L k r t) = Ok t;
  base64_roundtrip : forall t, b64decode L (b64encode L t) = Ok t
}.

(** The payload [encrypt_parameters] returns. *)
Definition ciphertext (L : library (gmap string (pval F O)) F)
    (e : engine L) (r : entropy L) (p : gmap string (pval F O)) : text L :=
  b64encode L (fernet_encrypt L (master_key L e) r (json_dumps L p)).

End WithNum.
End Contract.

(** ** A symbolic instance of the libraries

    Texts are terms: a serialised mapping, a token sealed under a key and
    an IV, a base64 armour, or any other string. The generator is a list
    of draws from the unit Laplace distribution. *)
Module Symbolic.
Section WithNum.
Import SMPCEngine.
Context {F : Type} `{Num F} {O : Type}.

Inductive term : Type :=
  | TJson (p : gmap string (pval F O))
  | TToken (k : nat) (iv : nat) (t : term)
  | TBase64 (t : term)
  | TRaw (s : string).

Definition lib : library (gmap string (pval F O)) F := {|
  text := term;
  key := nat;
  entropy := nat;
  rng := list F;
  json_dumps := TJson;
  json_loads := fun t => match t with TJson p => Ok p | _ => Raise ValueError end;
  fernet_encrypt := TToken;
  fernet_decrypt := fun k t =>
    match t with
    | TToken k' _ t' => if Nat.eqb k k' then Ok t' else Raise InvalidToken
    | _ => Raise InvalidToken
    end;
  b64encode := TBase64;
  b64decode := fun t => match t with TBase64 t' => Ok t' | _ => Raise ValueError end;
  laplace := fun g scale =>
    if fltb scale fzero then Raise ValueError
    else match g with
         | [] => Ok (fzero, [])
         | x :: g' => Ok (fmul scale x, g')
         end
|}.

End WithNum.
Arguments term F O : clear implicits.
End Symbolic.

(** The symbolic libraries on binary64, with strings as the other values;
    [float] of a string that is not a number raises. *)
Section Symbolic64.
Import SMPCEngine.

Definition L64 : library (gmap string (pval float string)) float := Symbolic.lib.
Definition no_float (s : string) : res float := Raise ValueError.
Definition engine64 : engine L64 := Engine L64 7%nat.

(** The mapping [{"w": x}]. *)
Definition only_w (x : float) : gmap string (pval float string) :=
  {[ "w"%string := PNum (NFloat x) ]}.

End Symbolic64.

(** ** Ledgers the operations reach

    [reaches log l]: [l] is a ledger that the constructor, [add_transaction]
    and [mine_block] produce, and [log] lists the transactions submitted on
    the way, in order. *)
Section Reach.
Import BlockchainLedger.

Inductive reaches : list transaction -> ledger -> Prop :=
  | reaches_init (now : string) :
      reaches [] (init now)
  | reaches_add (log : list transaction) (l : ledger)
        (now1 now2 mh : string) (uid : Z) (inst : string) :
      reaches log l ->
      reaches (log ++ [fst (add_transaction now1 now2 mh uid inst l)])
              (snd (add_transaction now1 now2 mh uid inst l))
  | reaches_mine (log : list transaction) (l l' : ledger)
        (fuel : nat) (now : string) (r : res (option block)) :
      reaches log l ->
      mine_block fuel now l = Some (r, l') ->
      reaches log l'.

(** A character of a lower-case hexadecimal digest. *)
Definition is_hex_char (c : ascii) : bool :=
  let n := Z.of_nat (nat_of_ascii c) in
  ((48 <=? n) && (n <=? 57)) || ((97 <=? n) && (n <=? 102)).

Definition is_digest (s : string) : Prop :=
  String.length s = 64%nat /\ forallb is_hex_char (list_ascii_of_string s) = true.

(** The shape of a chain the operations build: the genesis block first,
    every block numbered by its position with the nonce it was created
    with, every later block linked to the one before, holding at least
    one transaction and carrying a hash that meets the difficulty. *)
Definition well_formed (l : ledger) : Prop :=
  difficulty l = 2 /\
  (exists g rest, chain l = g :: rest /\ transactions g = [] /\
                  previous_hash g = Some "0"%string /\
                  _verify_block_integrity g = true) /\
  (forall i b, chain l !! i = Some b -> block_number b = Z.of_nat i /\ nonce b = 0) /\
  (forall i cur prev, chain l !! S i = Some cur -> chain l !! i = Some prev ->
     previous_hash cur = hash prev /\ transactions cur <> [] /\
     exists h, hash cur = Some h /\ is_digest h /\ meets_difficulty 2 h = true /\
               _verify_block_integrity cur = meets_difficulty 2 (_calculate_hash cur)).

End Reach.

(** ** What the coordinator keeps true of its records *)
Section Registry.
Import FederatedLearning.
Context {F : Type} `{Num F}.

Definition record_ok (p : participant F) : Prop :=
  status p = "active"%string /\
  rounds_participated p = model_updates_submitted p /\
  0 <= rounds_participated p /\
  (last_accuracy p = None <-> rounds_participated p = 0) /\
  (last_update p = None <-> rounds_participated p = 0).

Definition state_ok (o : orchestrator F) : Prop :=
  map_Forall (fun _ p => record_ok p) (participants o) /\
  global_model o = None /\
  training_history o = [].

(** The updates a sequence of calls submits for [id]. *)
Definition updates_of (id : string) (cs : list (Trace.call F)) : list F :=
  omap (fun c => match c with
                 | Trace.UpdateStats _ id' accuracy =>
                     if bool_decide (id' = id) then Some accuracy else None
                 | _ => None
                 end) cs.

End Registry.

(** * Properties *)

#[local] Set Warnings "-inexact-float".

Example sha256_abc :
  Sha256.hexdigest "abc"
  = "ba7816bf8f01cfea414140de5dae2223b00361a396177a9cb410ff61f20015ad"%string.
Proof. vm_compute. reflexivity. Qed.

Example sha256_empty :
  Sha256.hexdigest EmptyString
  = "e3b0c44298fc1c149afbf4c8996fb92427ae41e4649b934ca495991b7852b855"%string.
Proof. vm_compute. reflexivity. Qed.

Example sha256_two_blocks :
  Sha256.hexdigest "abcdbcdecdefdefgefghfghighijhijkijkljklmklmnlmnomnopnopq"
  = "248d6a61d20638b8e5c026930c3e6039a33ce45964ff2167f6ecedd419db06c1"%string.
Proof. vm_compute. reflexivity. Qed.


Section LedgerFacts.
Import BlockchainLedger.

Lemma calculate_hash_set_hash h b :
  _calculate_hash (set_hash h b) = _calculate_hash b.
Proof. reflexivity. Qed.

Lemma pow_loop_meets fuel : forall d bc n h r,
  pow_loop fuel d bc n h = Some r -> meets_difficulty d r = true.
Proof.
  induction fuel as [|fuel IH]; intros d bc n h r; simpl;
    destruct (meets_difficulty d h) eqn:E; intros Hr; try congruence.
  eapply IH; eauto.
Qed.

Lemma py_getitem_last {A} (l : list A) x :
  py_getitem l (-1) = Ok x -> last l = Some x.
Proof.
  unfold py_getitem. simpl.
  destruct (_ || _) eqn:E; [discriminate|].
  apply orb_false_iff in E as [E1 E2].
  destruct (l !! _) eqn:El; [|discriminate].
  intros [= ->]. rewrite last_lookup. rewrite <- El. f_equal. lia.
Qed.

Lemma mine_block_inv fuel now l b l' :
  mine_block fuel now l = Some (Ok (Some b), l') ->
  exists last_block h,
    pending_transactions l <> [] /\
    last (chain l) = Some last_block /\
    meets_difficulty (difficulty l) h = true /\
    b = Block (Z.of_nat (length (chain l))) now (pending_transactions l)
              (hash last_block) (Some h) 0 /\
    l' = Ledger (chain l ++ [b]) [] (difficulty l).
Proof.
  unfold mine_block. destruct (pending_transactions l) as [|t ts] eqn:Ep; [discriminate|].
  destruct (py_getitem (chain l) (-1)) as [lb|] eqn:Eg; [|discriminate].
  destruct (_proof_of_work _ _ _) as [h|] eqn:Epow; [|discriminate].
  intros [= <- <-]. exists lb, h. split; [discriminate|].
  split; [by apply py_getitem_last|]. split; [|done].
  unfold _proof_of_work in Epow. by eapply pow_loop_meets.
Qed.

(** C1. A block that [mine_block] returns carries a hash with [difficulty]
    leading zeros, but its stored nonce is still 0: the winning nonce is
    written to the copy only. So whenever the first candidate (nonce 0)
    does not already meet the difficulty, recomputing the hash over the
    stored fields does not reproduce the stored hash, and the block fails
    [_verify_block_integrity]. *)
Theorem mine_block_stored_hash fuel now l b l' :
  mine_block fuel now l = Some (Ok (Some b), l') ->
  meets_difficulty (difficulty l) (_calculate_hash b) = false ->
  (exists h, hash b = Some h /\ meets_difficulty (difficulty l) h = true) /\
  nonce b = 0 /\
  _verify_block_integrity b = false.
Proof.
  intros Hm Hfirst.
  destruct (mine_block_inv _ _ _ _ _ Hm) as (lb & h & _ & _ & Hh & -> & _).
  split; [by exists h|]. split; [done|].
  unfold _verify_block_integrity. simpl. apply bool_decide_eq_false.
  intros [= Heq]. simpl in Hfirst.
  change (_calculate_hash _) with
    (_calculate_hash (Block (Z.of_nat (length (chain l))) now (pending_transactions l)
                            (hash lb) (Some h) 0)) in Heq.
  rewrite <- Heq in Hfirst. congruence.
Qed.

End LedgerFacts.

Section ChainFacts.
Import BlockchainLedger.

Lemma verify_step_fields c r i :
  let r' := verify_step c r i in
  invalid_blocks r' = invalid_blocks r ++ (if self_check_fails c i then [Z.of_nat i] else []) /\
  broken_links r' = broken_links r ++ (if link_fails c i then [Z.of_nat i] else []) /\
  total_blocks r' = total_blocks r /\
  valid r' = valid r && negb (self_check_fails c i) && negb (link_fails c i).
Proof.
  unfold verify_step, self_check_fails, link_fails.
  destruct (c !! i) as [cur|], (c !! (i - 1)%nat) as [prev|]; simpl;
    rewrite ?app_nil_r, ?andb_true_r; try done.
  destruct (_verify_block_integrity cur), (bool_decide _); simpl;
    rewrite ?app_nil_r, ?andb_true_r, ?andb_false_r; done.
Qed.

Lemma verify_fold c : forall (idx : list nat) r,
  let r' := fold_left (verify_step c) idx r in
  invalid_blocks r' = invalid_blocks r ++ map Z.of_nat (List.filter (self_check_fails c) idx) /\
  broken_links r' = broken_links r ++ map Z.of_nat (List.filter (link_fails c) idx) /\
  total_blocks r' = total_blocks r /\
  valid r' = valid r &&
    forallb (fun i => negb (self_check_fails c i) && negb (link_fails c i)) idx.
Proof.
  induction idx as [|i idx IH]; intros r; simpl.
  - rewrite !app_nil_r, andb_true_r. done.
  - destruct (IH (verify_step c r i)) as (H1 & H2 & H3 & H4).
    destruct (verify_step_fields c r i) as (S1 & S2 & S3 & S4).
    rewrite H1, H2, H3, H4, S1, S2, S3, S4. repeat split.
    + rewrite <- app_assoc. f_equal. by destruct (self_check_fails c i).
    + rewrite <- app_assoc. f_equal. by destruct (link_fails c i).
    + by rewrite !andb_assoc.
Qed.

Lemma verify_chain_integrity_spec l :
  let c := chain l in
  let idx := seq 1 (length c - 1) in
  let r := verify_chain_integrity l in
  invalid_blocks r = map Z.of_nat (List.filter (self_check_fails c) idx) /\
  broken_links r = map Z.of_nat (List.filter (link_fails c) idx) /\
  total_blocks r = Z.of_nat (length c) /\
  valid r = forallb (fun i => negb (self_check_fails c i) && negb (link_fails c i)) idx.
Proof.
  intros c idx r. subst r. unfold verify_chain_integrity.
  destruct (verify_fold c idx (Results true (Z.of_nat (length c)) [] [])) as (H1 & H2 & H3 & H4).
  fold c. fold idx. rewrite H1, H2, H3, H4. done.
Qed.

Lemma in_map_of_nat (i : nat) (l : list nat) :
  Z.of_nat i ∈ map Z.of_nat l <-> i ∈ l.
Proof.
  split.
  - intros Hin. apply list_elem_of_In, in_map_iff in Hin as (j & Hj & Hin).
    apply Nat2Z.inj in Hj. subst. by apply list_elem_of_In.
  - intros Hin. apply list_elem_of_In, in_map. by apply list_elem_of_In.
Qed.

Lemma elem_of_invalid_blocks l (i : nat) :
  Z.of_nat i ∈ invalid_blocks (verify_chain_integrity l) <->
  (0 < i)%nat /\ exists b, chain l !! i = Some b /\ _verify_block_integrity b = false.
Proof.
  destruct (verify_chain_integrity_spec l) as (-> & _).
  rewrite in_map_of_nat, list_elem_of_In, filter_In, in_seq.
  unfold self_check_fails. split.
  - intros [Hr Hf]. split; [lia|].
    destruct (chain l !! i) as [b|]; [|done].
    destruct (chain l !! (i - 1)%nat); [|done].
    exists b. split; [done|]. by apply negb_true_iff.
  - intros [Hi (b & Hb & Hv)].
    assert (i < length (chain l))%nat by (by eapply lookup_lt_Some).
    split; [lia|]. rewrite Hb.
    destruct (lookup_lt_is_Some_2 (chain l) (i - 1)%nat) as [p ->]; [lia|].
    by rewrite Hv.
Qed.

Lemma elem_of_broken_links l (i : nat) :
  Z.of_nat i ∈ broken_links (verify_chain_integrity l) <->
  (0 < i)%nat /\
  exists cur prev, chain l !! i = Some cur /\ chain l !! (i - 1)%nat = Some prev /\
                   previous_hash cur <> hash prev.
Proof.
  destruct (verify_chain_integrity_spec l) as (_ & -> & _).
  rewrite in_map_of_nat, list_elem_of_In, filter_In, in_seq.
  unfold link_fails. split.
  - intros [Hr Hf]. split; [lia|].
    destruct (chain l !! i) as [b|]; [|done].
    destruct (chain l !! (i - 1)%nat) as [p|]; [|done].
    exists b, p. repeat split; try done.
    apply negb_true_iff, bool_decide_eq_false in Hf. done.
  - intros [Hi (b & p & Hb & Hp & Hne)].
    assert (i < length (chain l))%nat by (by eapply lookup_lt_Some).
    split; [lia|]. rewrite Hb, Hp. by apply negb_true_iff, bool_decide_eq_false.
Qed.

Lemma valid_iff l :
  valid (verify_chain_integrity l) = true <->
  invalid_blocks (verify_chain_integrity l) = [] /\
  broken_links (verify_chain_integrity l) = [].
Proof.
  destruct (verify_chain_integrity_spec l) as (-> & -> & _ & ->).
  generalize (seq 1 (length (chain l) - 1)). intros idx.
  induction idx as [|i idx IH]; simpl; [done|].
  destruct (self_check_fails (chain l) i), (link_fails (chain l) i); simpl;
    try (split; [discriminate | intros [? ?]; discriminate]); done.
Qed.

End ChainFacts.

Section ExampleLedgers.
Import BlockchainLedger.

Lemma example_fresh : init "2024-01-01T00:00:00" = Example.fresh.
Proof. vm_compute. reflexivity. Qed.

Lemma example_pending1 :
  add_transaction "2024-01-01T00:01:00" "2024-01-01T00:01:00.000012"
    "71ba379fb295ca37754deadd175c747b02b0350cca98776ca8bcf3b87bde8abf" 7 "City Hospital"
    Example.fresh = (Example.tx1, Example.pending1).
Proof. vm_compute. reflexivity. Qed.

Lemma example_sealed1 :
  mine_block 0 "2024-01-01T00:05:00.000098" Example.pending1
  = Some (Ok (Some Example.block1), Example.sealed1).
Proof. vm_compute. reflexivity. Qed.

Lemma example_pending2 :
  add_transaction "2024-01-01T00:06:00" "2024-01-01T00:06:00.000015"
    "e780c26d329c52267504107ca259b6c76179a38807969ec226753452f8b5809f" 8
    "Central Medical Center" Example.sealed1 = (Example.tx2, Example.pending2).
Proof. vm_compute. reflexivity. Qed.

Lemma example_sealed2 :
  mine_block 0 "2024-01-01T00:10:00.000025" Example.pending2
  = Some (Ok (Some Example.block2), Example.sealed2).
Proof. vm_compute. reflexivity. Qed.

Lemma example_skewed :
  mine_block 3 "2024-01-01T00:05:00.000124" Example.pending1
  = Some (Ok (Some Example.skewed_block),
          Example.skewed).
Proof. vm_compute. reflexivity. Qed.

Lemma example_skewed_fuel2 :
  mine_block 2 "2024-01-01T00:05:00.000124" Example.pending1 = None.
Proof. vm_compute. reflexivity. Qed.

End ExampleLedgers.

Section TamperFacts.
Import BlockchainLedger.

Lemma chain_mutate i f l : chain (mutate i f l) = alter f i (chain l).
Proof. reflexivity. Qed.

(** The pass reads nothing of the genesis block but its stored hash. *)
Lemma verify_step_genesis f c r j :
  (forall b, c !! 0%nat = Some b -> hash (f b) = hash b) ->
  (0 < j)%nat ->
  verify_step (alter f 0%nat c) r j = verify_step c r j.
Proof.
  intros Hf Hj. unfold verify_step.
  rewrite (list_lookup_alter_ne f c 0 j) by lia.
  destruct (c !! j) as [cur|]; [|done].
  destruct (decide (j = 1%nat)) as [->|Hne].
  - simpl. rewrite list_lookup_alter_eq.
    destruct (c !! 0%nat) as [g|] eqn:Eg; simpl; [|done].
    by rewrite (Hf g eq_refl).
  - rewrite (list_lookup_alter_ne f c 0 (j - 1)) by lia. done.
Qed.

Lemma fold_left_ext_in {A B} (f g : A -> B -> A) (l : list B) :
  (forall a x, In x l -> f a x = g a x) ->
  forall a, fold_left f l a = fold_left g l a.
Proof.
  induction l as [|x l IH]; intros Hfg a; simpl; [done|].
  rewrite Hfg by (by left). apply IH. intros; apply Hfg; by right.
Qed.

Lemma verify_chain_integrity_genesis f l :
  (forall b, chain l !! 0%nat = Some b -> hash (f b) = hash b) ->
  verify_chain_integrity (mutate 0 f l) = verify_chain_integrity l.
Proof.
  intros Hf. unfold verify_chain_integrity. rewrite chain_mutate, length_alter.
  apply fold_left_ext_in. intros r j Hj. apply in_seq in Hj.
  apply verify_step_genesis; [done|lia].
Qed.

(** C3. [verify_chain_integrity] reports index [j > 0] as invalid exactly
    when block [j] fails its own hash check and as a broken link exactly
    when its [previous_hash] differs from the stored hash of block
    [j - 1], each whatever the other test says; the chain is valid exactly
    when both lists are empty. Replacing the stored hash of [chain[i-1]]
    by another value, where the link at [i] held, reports [i] as a broken
    link. A mutation of [chain[i-1]] that keeps its stored hash changes
    nothing at index [i]: it shows at index [i - 1] among the invalid
    blocks when [i - 1 > 0], and not at all when [chain[i-1]] is the
    genesis block. *)
Theorem verify_chain_integrity_tamper (l : ledger) (i : nat) (prev cur : block) :
  (0 < i)%nat ->
  chain l !! (i - 1)%nat = Some prev ->
  chain l !! i = Some cur ->
  let r := verify_chain_integrity l in
  (forall j : nat, Z.of_nat j ∈ invalid_blocks r <->
     (0 < j)%nat /\ exists b, chain l !! j = Some b /\ _verify_block_integrity b = false) /\
  (forall j : nat, Z.of_nat j ∈ broken_links r <->
     (0 < j)%nat /\ exists b p, chain l !! j = Some b /\ chain l !! (j - 1)%nat = Some p /\
                                previous_hash b <> hash p) /\
  (valid r = true <-> invalid_blocks r = [] /\ broken_links r = []) /\
  (forall h', previous_hash cur = hash prev -> h' <> hash prev ->
     let r' := verify_chain_integrity (mutate (i - 1) (set_hash h') l) in
     valid r' = false /\ Z.of_nat i ∈ broken_links r') /\
  (forall f, hash (f prev) = hash prev ->
     let r' := verify_chain_integrity (mutate (i - 1) f l) in
     (Z.of_nat i ∈ invalid_blocks r' <-> Z.of_nat i ∈ invalid_blocks r) /\
     (Z.of_nat i ∈ broken_links r' <-> Z.of_nat i ∈ broken_links r) /\
     (i = 1%nat -> r' = r) /\
     ((1 < i)%nat -> _verify_block_integrity (f prev) = false ->
        valid r' = false /\ Z.of_nat (i - 1) ∈ invalid_blocks r')).
Proof.
  intros Hi Hprev Hcur r.
  split; [intros j; apply elem_of_invalid_blocks|].
  split; [intros j; apply elem_of_broken_links|].
  split; [apply valid_iff|].
  assert (Hcur' : forall f, chain (mutate (i - 1) f l) !! i = Some cur).
  { intros f. rewrite chain_mutate, list_lookup_alter_ne by lia. done. }
  assert (Hprev' : forall f, chain (mutate (i - 1) f l) !! (i - 1)%nat = Some (f prev)).
  { intros f. rewrite chain_mutate, list_lookup_alter_eq, Hprev. done. }
  split.
  - intros h' Hlink Hh' r'.
    assert (Hin : Z.of_nat i ∈ broken_links r').
    { apply elem_of_broken_links. split; [done|].
      exists cur, (set_hash h' prev). rewrite Hcur', Hprev'.
      split; [done|]. split; [done|]. simpl. congruence. }
    split; [|done].
    destruct (valid r') eqn:Ev; [|done].
    apply valid_iff in Ev as [_ Ev]. unfold r' in Hin. rewrite Ev in Hin.
    by apply elem_of_nil in Hin.
  - intros f Hf r'. repeat split.
    + intros Hin. apply elem_of_invalid_blocks in Hin as [_ (b & Hb & Hv)].
      rewrite Hcur' in Hb. injection Hb as <-.
      apply elem_of_invalid_blocks. split; [done|]. by exists cur.
    + intros Hin. apply elem_of_invalid_blocks in Hin as [_ (b & Hb & Hv)].
      rewrite Hcur in Hb. injection Hb as <-.
      apply elem_of_invalid_blocks. split; [done|]. exists cur. by rewrite Hcur'.
    + intros Hin. apply elem_of_broken_links in Hin as [_ (b & p & Hb & Hp & Hne)].
      rewrite Hcur' in Hb. rewrite Hprev' in Hp. injection Hb as <-. injection Hp as <-.
      apply elem_of_broken_links. split; [done|]. exists cur, prev. by rewrite <- Hf.
    + intros Hin. apply elem_of_broken_links in Hin as [_ (b & p & Hb & Hp & Hne)].
      rewrite Hcur in Hb. rewrite Hprev in Hp. injection Hb as <-. injection Hp as <-.
      apply elem_of_broken_links. split; [done|]. exists cur, (f prev).
      rewrite Hcur', Hprev', Hf. done.
    + intros ->. apply verify_chain_integrity_genesis.
      intros b Hb. simpl in Hprev. rewrite Hprev in Hb. by injection Hb as <-.
    + destruct (valid r') eqn:Ev; [|done].
      assert (Hin : Z.of_nat (i - 1) ∈ invalid_blocks r').
      { apply elem_of_invalid_blocks. split; [lia|]. exists (f prev). by rewrite Hprev'. }
      apply valid_iff in Ev as [Ev _]. unfold r' in Hin. rewrite Ev in Hin.
      by apply elem_of_nil in Hin.
    + apply elem_of_invalid_blocks. split; [lia|]. exists (f prev). by rewrite Hprev'.
Qed.

Lemma verify_chain_integrity_tamper_witness :
  (0 < 2)%nat /\
  chain Example.sealed2 !! 1%nat = Some Example.block1 /\
  chain Example.sealed2 !! 2%nat = Some Example.block2 /\
  (let r' := verify_chain_integrity
               (mutate 1 (set_hash (Some "ff"%string)) Example.sealed2) in
   valid r' = false /\ 2 ∈ broken_links r').
Proof.
  split; [lia|]. split; [reflexivity|]. split; [reflexivity|].
  destruct (verify_chain_integrity_tamper Example.sealed2 2 Example.block1 Example.block2)
    as (_ & _ & _ & Hhash & _); [lia|reflexivity|reflexivity|].
  apply (Hhash (Some "ff"%string)); [reflexivity|discriminate].
Defined.

Lemma verify_chain_integrity_misses_tamper :
  verify_chain_integrity Example.sealed2 = Results true 3 [] [] /\
  verify_chain_integrity (mutate 0 (set_timestamp "1999-12-31T23:59:59") Example.sealed2)
  = Results true 3 [] [] /\
  verify_chain_integrity (mutate 1 (set_timestamp "1999-12-31T23:59:59") Example.sealed2)
  = Results false 3 [1] [].
Proof. vm_compute. repeat split. Qed.

Lemma mine_block_stored_hash_witness :
  mine_block 3 "2024-01-01T00:05:00.000124" Example.pending1
  = Some (Ok (Some Example.skewed_block), Example.skewed) /\
  meets_difficulty 2 (_calculate_hash Example.skewed_block) = false /\
  (exists h, hash Example.skewed_block = Some h /\ meets_difficulty 2 h = true) /\
  nonce Example.skewed_block = 0 /\
  _verify_block_integrity Example.skewed_block = false.
Proof.
  split; [vm_compute; reflexivity|]. split; [vm_compute; reflexivity|].
  apply (mine_block_stored_hash 3 "2024-01-01T00:05:00.000124" Example.pending1
           Example.skewed_block Example.skewed).
  - vm_compute; reflexivity.
  - vm_compute; reflexivity.
Defined.

Lemma py_getitem_below {A} (l : list A) (i : Z) :
  i < - Z.of_nat (length l) -> py_getitem l i = Raise IndexError.
Proof.
  intros Hi. unfold py_getitem. cbv zeta.
  destruct (Z.ltb_spec i 0); [|lia].
  destruct (Z.ltb_spec (Z.of_nat (length l) + i) 0); [done|lia].
Qed.

Lemma py_getitem_above {A} (l : list A) (i : Z) :
  Z.of_nat (length l) <= i -> py_getitem l i = Raise IndexError.
Proof.
  intros Hi. unfold py_getitem. cbv zeta.
  destruct (Z.ltb_spec i 0); [lia|].
  destruct (Z.ltb_spec i 0); [lia|].
  destruct (Z.leb_spec (Z.of_nat (length l)) i); [done|lia].
Qed.

Lemma py_getitem_nonneg {A} (l : list A) (i : Z) :
  0 <= i < Z.of_nat (length l) ->
  exists x, l !! Z.to_nat i = Some x /\ py_getitem l i = Ok x.
Proof.
  intros Hi. unfold py_getitem. cbv zeta.
  destruct (Z.ltb_spec i 0); [lia|].
  destruct (Z.ltb_spec i 0); [lia|].
  destruct (Z.leb_spec (Z.of_nat (length l)) i); [lia|]. simpl.
  destruct (lookup_lt_is_Some_2 l (Z.to_nat i)) as [x Hx]; [lia|].
  exists x. by rewrite Hx.
Qed.

Lemma py_getitem_negative {A} (l : list A) (i : Z) :
  - Z.of_nat (length l) <= i < 0 ->
  exists x, l !! Z.to_nat (Z.of_nat (length l) + i) = Some x /\ py_getitem l i = Ok x.
Proof.
  intros Hi. unfold py_getitem. cbv zeta.
  destruct (Z.ltb_spec i 0); [|lia].
  destruct (Z.ltb_spec (Z.of_nat (length l) + i) 0); [lia|].
  destruct (Z.leb_spec (Z.of_nat (length l)) (Z.of_nat (length l) + i)); [lia|]. simpl.
  destruct (lookup_lt_is_Some_2 l (Z.to_nat (Z.of_nat (length l) + i))) as [x Hx]; [lia|].
  exists x. by rewrite Hx.
Qed.

(** C8. [get_block] only tests the index against the length of the chain:
    an index below [-len] reaches [chain[index]] and raises
    [IndexError]. *)
Theorem get_block_below_range (l : ledger) (n : Z) :
  n < - Z.of_nat (length (chain l)) -> get_block l n = Raise IndexError.
Proof.
  intros Hn. unfold get_block.
  destruct (Z.ltb_spec n (Z.of_nat (length (chain l)))); [|lia].
  by rewrite py_getitem_below.
Qed.

Lemma get_block_below_range_witness :
  -2 < - Z.of_nat (length (chain Example.fresh)) /\
  get_block Example.fresh (-2) = Raise IndexError.
Proof.
  split; [simpl; lia|].
  apply (get_block_below_range Example.fresh (-2)). simpl. lia.
Defined.

Lemma get_block_in_range (l : ledger) (n : Z) :
  0 <= n < Z.of_nat (length (chain l)) ->
  exists b, chain l !! Z.to_nat n = Some b /\ get_block l n = Ok (Some b).
Proof.
  intros Hn. unfold get_block.
  destruct (Z.ltb_spec n (Z.of_nat (length (chain l)))); [|lia].
  destruct (py_getitem_nonneg (chain l) n Hn) as (b & Hb & ->). by exists b.
Qed.

Lemma get_block_above_range (l : ledger) (n : Z) :
  Z.of_nat (length (chain l)) <= n -> get_block l n = Ok None.
Proof.
  intros Hn. unfold get_block.
  destruct (Z.ltb_spec n (Z.of_nat (length (chain l)))); [lia|done].
Qed.

Lemma get_block_negative (l : ledger) (n : Z) :
  - Z.of_nat (length (chain l)) <= n < 0 ->
  exists b, chain l !! Z.to_nat (Z.of_nat (length (chain l)) + n) = Some b /\
            get_block l n = Ok (Some b).
Proof.
  intros Hn. unfold get_block.
  destruct (Z.ltb_spec n (Z.of_nat (length (chain l)))); [|lia].
  destruct (py_getitem_negative (chain l) n Hn) as (b & Hb & ->). by exists b.
Qed.

Theorem get_block_fresh_raises (now : string) :
  get_block (init now) (-2) = Raise IndexError.
Proof. reflexivity. Qed.

End TamperFacts.

Section ConvergenceFacts.
Import FederatedLearning.
Context {F : Type} `{Num F}.

Lemma improvements_fold (h : list F) : forall (idx : list Z) (acc : list F),
  Forall (fun i => 0 <= i < Z.of_nat (length h)) idx ->
  fold_left
    (fun acc i =>
       improvements ← acc;
       if 0 <? i then
         a ← py_getitem h i;
         b ← py_getitem h (i - 1);
         mret (improvements ++ [fsub a b])
       else mret improvements)
    idx (Ok acc)
  = Ok (acc ++ map (delta_at h) (List.filter (fun i => 0 <? i) idx)).
Proof.
  induction idx as [|i idx IH]; intros acc Hall; simpl.
  - by rewrite app_nil_r.
  - apply Forall_cons in Hall as [Hi Hall].
    destruct (Z.ltb_spec 0 i).
    + destruct (py_getitem_nonneg h i) as (a & Ha & ->); [lia|].
      destruct (py_getitem_nonneg h (i - 1)) as (b & Hb & ->); [lia|].
      simpl. rewrite IH by done. rewrite <- app_assoc. simpl.
      unfold delta_at at 2. by rewrite Ha, Hb.
    + simpl. by rewrite IH.
Qed.

Lemma py_range_lookup a b (k : nat) :
  (k < Z.to_nat (b - a))%nat -> py_range a b !! k = Some (a + Z.of_nat k).
Proof.
  intros Hk. unfold py_range. rewrite list_lookup_fmap, lookup_seq_lt by done. done.
Qed.

Lemma py_range_length a b : length (py_range a b) = Z.to_nat (b - a).
Proof. unfold py_range. by rewrite length_map, length_seq. Qed.

Lemma py_range_bounds a b : Forall (fun i => a <= i < b) (py_range a b).
Proof.
  unfold py_range. apply Forall_forall. intros i Hi.
  apply list_elem_of_In, in_map_iff in Hi as (k & <- & Hk). apply in_seq in Hk. lia.
Qed.

Lemma filter_positive_range a b :
  0 <= a -> List.filter (fun i => 0 <? i) (py_range a b) = py_range (Z.max 1 a) b.
Proof.
  intros Ha. destruct (Z.eq_dec a 0) as [->|Hne].
  - unfold py_range. rewrite Z.sub_0_r. replace (Z.max 1 0) with 1 by lia.
    destruct (Z.to_nat b) as [|n] eqn:Eb.
    + replace (Z.to_nat (b - 1)) with 0%nat by lia. done.
    + replace (Z.to_nat (b - 1)) with n by lia. simpl.
      rewrite <- seq_shift, map_map.
      induction (seq 0 n) as [|k l IH]; simpl; [done|].
      destruct (Z.ltb_spec 0 (Z.pos (Pos.of_succ_nat k))); [|lia].
      f_equal; [lia|]. apply IH.
  - replace (Z.max 1 a) with a by lia.
    pose proof (py_range_bounds a b) as Hb.
    induction (py_range a b) as [|i l IH]; simpl; [done|].
    apply Forall_cons in Hb as [Hi Hb].
    destruct (Z.ltb_spec 0 i); [|lia]. f_equal. by apply IH.
Qed.

Lemma deltas_length (h : list F) : length (Spec.deltas h) = (length h - 1)%nat.
Proof.
  unfold Spec.deltas. rewrite length_zip_with. destruct h; simpl; lia.
Qed.

Lemma deltas_lookup (h : list F) (k : nat) a b :
  h !! S k = Some a -> h !! k = Some b -> Spec.deltas h !! k = Some (fsub a b).
Proof.
  intros Ha Hb. unfold Spec.deltas. rewrite lookup_zip_with.
  rewrite lookup_tail, Ha. simpl. by rewrite Hb.
Qed.

Lemma recent_improvements_spec (h : list F) (patience : Z) :
  patience <= Z.of_nat (length h) ->
  recent_improvements h patience = Ok (Spec.recent_deltas h patience).
Proof.
  intros Hp. unfold recent_improvements.
  set (len := Z.of_nat (length h)).
  destruct (Z.le_gt_cases patience 0) as [Hneg|Hpos].
  { (* the range is empty *)
    unfold py_range. replace (Z.to_nat (len - (len - patience))) with 0%nat by lia.
    simpl. unfold Spec.recent_deltas.
    replace (Z.to_nat (Z.min patience _)) with 0%nat by lia.
    rewrite Nat.sub_0_r, drop_all. done. }
  rewrite improvements_fold.
  2:{ eapply Forall_impl; [apply py_range_bounds|]. simpl. intros; lia. }
  rewrite filter_positive_range by lia. simpl. f_equal.
  unfold Spec.recent_deltas. rewrite deltas_length.
  apply list_eq. intros k.
  rewrite list_lookup_fmap, lookup_drop.
  set (lo := Z.max 1 (len - patience)).
  assert (Hlo : Z.of_nat (length h - 1 - Z.to_nat (Z.min patience (Z.of_nat (length h - 1)))) + 1
                = lo) by lia.
  destruct (decide (k < Z.to_nat (len - lo))%nat) as [Hk|Hk].
  - rewrite py_range_lookup by done. simpl.
    unfold delta_at.
    destruct (lookup_lt_is_Some_2 h (Z.to_nat (lo + Z.of_nat k))) as [a Ha]; [lia|].
    destruct (lookup_lt_is_Some_2 h (Z.to_nat (lo + Z.of_nat k - 1))) as [b Hb]; [lia|].
    rewrite Ha, Hb. symmetry. apply deltas_lookup.
    + rewrite <- Ha. f_equal. lia.
    + rewrite <- Hb. f_equal. lia.
  - rewrite (lookup_ge_None_2 (py_range lo len)) by (rewrite py_range_length; lia).
    simpl. symmetry. apply lookup_ge_None_2. rewrite deltas_length. lia.
Qed.

Lemma py_getitem_last_nonempty (h : list F) :
  h <> [] -> exists x, last h = Some x /\ py_getitem h (-1) = Ok x.
Proof.
  intros Hne. destruct (py_getitem_negative h (-1)) as (x & Hx & Hg).
  { destruct h; [done|]. simpl. lia. }
  exists x. split; [|done]. by apply py_getitem_last.
Qed.

Lemma check_convergence_short (h : list F) threshold patience :
  Z.of_nat (length h) < patience ->
  check_convergence h threshold patience = Ok not_enough_history.
Proof.
  intros Hp. unfold check_convergence. by destruct (Z.ltb_spec (Z.of_nat (length h)) patience); [|lia].
Qed.

Lemma check_convergence_long (h : list F) threshold patience :
  patience <= Z.of_nat (length h) -> h <> [] ->
  exists acc, last h = Some acc /\
    check_convergence h threshold patience =
    Ok (let m := Spec.max_or_zero (Spec.recent_deltas h patience) in
        if fltb m threshold then model_converged (Z.of_nat (length h)) acc
        else still_improving m acc).
Proof.
  intros Hp Hne. unfold check_convergence.
  destruct (Z.ltb_spec (Z.of_nat (length h)) patience); [lia|].
  rewrite recent_improvements_spec by done. simpl.
  destruct (py_getitem_last_nonempty h Hne) as (x & Hx & Hg).
  exists x. split; [done|]. rewrite Hg.
  fold (Spec.max_or_zero (Spec.recent_deltas h patience)).
  by destruct (fltb _ threshold).
Qed.

End ConvergenceFacts.

Section CoordinatorFacts.
Import FederatedLearning.

Lemma recent_deltas_length {F} `{Num F} (h : list F) (patience : Z) :
  length (Spec.recent_deltas h patience)
  = Z.to_nat (Z.min patience (Z.of_nat (length h - 1))).
Proof.
  unfold Spec.recent_deltas. rewrite length_drop, deltas_length. lia.
Qed.

(** C4. With fewer than [patience] accuracies [check_convergence] reports
    the insufficient-history result. Otherwise it takes the deltas that
    end at one of the most recent [patience] entries, which are
    [min patience (len - 1)] deltas, and reports convergence exactly when
    their maximum (0 when there is none) is below [threshold]. On
    [0.80, 0.81, 0.815, 0.816] with threshold 0.01 and patience 3 the
    delta [0.81 - 0.80] is among them and the report is not converged, as
    it is on [0.5, 0.6, 0.75, 0.9]. *)
Theorem check_convergence_policy {F} `{Num F}
    (history : list F) (threshold : F) (patience : Z) :
  history <> [] ->
  let len := Z.of_nat (length history) in
  let recent := Spec.recent_deltas history patience in
  (len < patience ->
     check_convergence history threshold patience = Ok not_enough_history) /\
  (patience <= len ->
     length recent = Z.to_nat (Z.min patience (len - 1)) /\
     exists c, check_convergence history threshold patience = Ok c /\
               converged c = fltb (Spec.max_or_zero recent) threshold) /\
  check_convergence [0.80; 0.81; 0.815; 0.816]%float 0.01%float 3
    = Ok (still_improving (0.81 - 0.80)%float 0.816%float) /\
  check_convergence [0.5; 0.6; 0.75; 0.9]%float 0.01%float 3
    = Ok (still_improving (0.75 - 0.6)%float 0.9%float).
Proof.
  intros Hne len recent. split; [apply check_convergence_short|].
  split; [|split; vm_compute; reflexivity].
  intros Hp. split.
  { unfold recent. rewrite recent_deltas_length. f_equal.
    destruct history; [done|]. simpl length in *. lia. }
  destruct (check_convergence_long history threshold patience Hp Hne) as (acc & _ & ->).
  eexists. split; [reflexivity|]. simpl. fold recent.
  by destruct (fltb _ threshold).
Qed.

Lemma check_convergence_policy_witness :
  [0.81; 0.815; 0.816]%float <> [] /\
  exists c, check_convergence [0.81; 0.815; 0.816]%float 0.01%float 3 = Ok c /\
            converged c = fltb (Spec.max_or_zero
                                  (Spec.recent_deltas [0.81; 0.815; 0.816]%float 3))
                               0.01%float.
Proof.
  split; [discriminate|].
  destruct (check_convergence_policy [0.81; 0.815; 0.816]%float 0.01%float 3)
    as (_ & Hlong & _); [discriminate|].
  apply Hlong. simpl. lia.
Defined.

Lemma check_convergence_spec_example_not_converged :
  check_convergence [0.80; 0.81; 0.815; 0.816]%float 0.01%float 3
  = Ok (still_improving (0.81 - 0.80)%float 0.816%float) /\
  (0.81 - 0.80 <? 0.01)%float = false.
Proof. split; vm_compute; reflexivity. Qed.

(** *** The registry *)

Context {F : Type} `{Num F}.

Lemma step_keeps (o : orchestrator F) (c : Trace.call F) (id : string) (p : participant F) :
  participants o !! id = Some p ->
  ~ Trace.removes id c ->
  exists p', participants (Trace.step o c) !! id = Some p' /\
             institution p' = institution p /\
             registered_at p' = registered_at p.
Proof.
  intros Hp Hc. destruct c as [now n alg|now id' inst|now id' acc|id']; simpl in *.
  - by exists p.
  - unfold register_participant. destruct (participants o !! id') eqn:E; simpl.
    + by exists p.
    + exists p. split; [|done]. rewrite lookup_insert_ne; [done|]. intros ->. congruence.
  - unfold update_participant_stats. destruct (participants o !! id') as [q|] eqn:E; simpl.
    + destruct (decide (id' = id)) as [->|Hne].
      * rewrite lookup_insert_eq. eexists. split; [done|]. simpl.
        rewrite Hp in E. by injection E as ->.
      * rewrite lookup_insert_ne by done. by exists p.
    + by exists p.
  - unfold remove_participant. destruct (participants o !! id') eqn:E; simpl.
    + rewrite lookup_delete_ne by done. by exists p.
    + by exists p.
Qed.

Lemma run_keeps (cs : list (Trace.call F)) : forall (o : orchestrator F) id p,
  participants o !! id = Some p ->
  Forall (fun c => ~ Trace.removes id c) cs ->
  exists p', participants (Trace.run cs o) !! id = Some p' /\
             institution p' = institution p /\
             registered_at p' = registered_at p.
Proof.
  induction cs as [|c cs IH]; intros o id p Hp Hall; simpl.
  - by exists p.
  - apply Forall_cons in Hall as [Hc Hall].
    destruct (step_keeps o c id p Hp Hc) as (p1 & Hp1 & Hi1 & Hr1).
    destruct (IH _ _ _ Hp1 Hall) as (p2 & Hp2 & Hi2 & Hr2).
    exists p2. split; [done|]. split; congruence.
Qed.

(** C9. The record [register_participant] creates stays in the registry,
    with its institution and registration time, through every sequence of
    calls that does not remove that participant. [remove_participant]
    deletes it: the identifier is unknown afterwards and registering it
    again creates a record with fresh counters. *)
Theorem participant_record_lifetime
    (o : orchestrator F) (now id inst : string) (cs : list (Trace.call F)) :
  participants o !! id = None ->
  let o1 := snd (register_participant now id inst o) in
  participants o1 !! id = Some (Participant inst "active" now 0 0 None None) /\
  (Forall (fun c => ~ Trace.removes id c) cs ->
     exists p, participants (Trace.run cs o1) !! id = Some p /\
               institution p = inst /\ registered_at p = now) /\
  (let o2 := snd (remove_participant id (Trace.run cs o1)) in
   participants o2 !! id = None /\
   (id <> EmptyString ->
      get_participant_status (Some id) o2 = participant_not_found) /\
   forall now' inst',
     participants (snd (register_participant now' id inst' o2)) !! id
     = Some (Participant inst' "active" now' 0 0 None None)).
Proof.
  intros Hfresh o1.
  assert (H1 : participants o1 !! id = Some (Participant inst "active" now 0 0 None None)).
  { unfold o1, register_participant. rewrite Hfresh. simpl. apply lookup_insert_eq. }
  split; [done|]. split.
  - intros Hall. destruct (run_keeps cs o1 id _ H1 Hall) as (p & Hp & Hi & Hr).
    by exists p.
  - assert (H2 : participants (snd (remove_participant id (Trace.run cs o1))) !! id = None).
    { unfold remove_participant. destruct (participants (Trace.run cs o1) !! id) eqn:E; simpl.
      - apply lookup_delete_eq.
      - done. }
    split; [done|]. split.
    + intros Hid. unfold get_participant_status.
      rewrite bool_decide_eq_false_2 by done. by rewrite H2.
    + intros now' inst'. unfold register_participant at 1. rewrite H2. simpl.
      apply lookup_insert_eq.
Qed.

End CoordinatorFacts.

Lemma participant_record_lifetime_witness :
  FederatedLearning.participants (FederatedLearning.init (F:=float))
    !! "hospital-a"%string = None /\
  FederatedLearning.participants
    (snd (FederatedLearning.register_participant "2024-01-01T00:00:00" "hospital-a"
            "City Hospital" (FederatedLearning.init (F:=float)))) !! "hospital-a"%string
  = Some (FederatedLearning.Participant "City Hospital" "active" "2024-01-01T00:00:00"
            0 0 None None).
Proof.
  split; [reflexivity|].
  apply (participant_record_lifetime (F:=float) FederatedLearning.init
           "2024-01-01T00:00:00" "hospital-a" "City Hospital" []).
  reflexivity.
Defined.

Lemma remove_participant_deletes_record :
  let o1 := snd (FederatedLearning.register_participant "2024-01-01T00:00:00" "hospital-a"
                   "City Hospital" (FederatedLearning.init (F:=float))) in
  let o2 := snd (FederatedLearning.remove_participant "hospital-a" o1) in
  FederatedLearning.participants o1 !! "hospital-a"%string
  = Some (FederatedLearning.Participant "City Hospital" "active" "2024-01-01T00:00:00"
            0 0 None None) /\
  FederatedLearning.participants o2 = ∅ /\
  FederatedLearning.get_participant_status (Some "hospital-a"%string) o2
  = FederatedLearning.participant_not_found.
Proof. vm_compute. repeat split. Qed.

Section AveragingFacts.
Import FederatedLearning.

Lemma traverse_ok {A B : Type} (f : A -> res B) (g : A -> B) (l : list A) :
  (forall x, x ∈ l -> f x = Ok (g x)) -> traverse f l = Ok (map g l).
Proof.
  induction l as [|x l IH]; intros Hf; simpl; [done|].
  rewrite Hf by apply list_elem_of_here. simpl.
  rewrite IH; [done|]. intros y Hy. apply Hf. by apply list_elem_of_further.
Qed.

Lemma derived_weights {F} `{Num F} (data_sizes : list Z) (total : Z) :
  total <> 0 ->
  traverse (fun size => py_int_truediv size total) data_sizes
  = Ok (map (fun size => fdiv (of_int size) (of_int total)) data_sizes).
Proof.
  intros Ht. apply traverse_ok. intros x _. unfold py_int_truediv.
  by destruct (Z.eqb_spec total 0).
Qed.

Lemma weighted_averaging_zero_total {F} `{Num F}
    (model_weights_list : list (list F)) (data_sizes : list Z) :
  data_sizes <> [] ->
  fold_left Z.add data_sizes 0 = 0 ->
  weighted_averaging model_weights_list data_sizes = Raise ZeroDivisionError.
Proof.
  intros Hne Hsum. unfold weighted_averaging. rewrite Hsum.
  destruct data_sizes as [|s ds]; [done|]. reflexivity.
Qed.

(** *** Exact arithmetic *)

Local Open Scope Qc_scope.

Lemma fold_left_Qcplus (l : list Qc) (a : Qc) :
  fold_left Qcplus l a = a + Qsum l.
Proof.
  revert a. induction l as [|x l IH]; intros a; simpl.
  - ring.
  - rewrite IH. ring.
Qed.

Lemma np_sum_exact (w : list Qc) : np_sum w = Qsum w.
Proof.
  destruct w as [|x w]; simpl; [done|]. apply (fold_left_Qcplus w x).
Qed.

Lemma fold_left_Zadd (l : list Z) (a : Z) :
  fold_left Z.add l a = (a + fold_right Z.add 0 l)%Z.
Proof.
  revert a. induction l as [|x l IH]; intros a; simpl; [lia|]. rewrite IH. lia.
Qed.

Lemma of_int_add (a b : Z) :
  Q2Qc (inject_Z (a + b)) = Q2Qc (inject_Z a) + Q2Qc (inject_Z b).
Proof.
  apply Qc_is_canon. unfold Qcplus, Q2Qc. cbn [this].
  rewrite !Qred_correct, inject_Z_plus. reflexivity.
Qed.

Lemma of_int_nonzero (a : Z) : a <> 0%Z -> Q2Qc (inject_Z a) <> Q2Qc 0.
Proof.
  intros Ha Heq. apply (f_equal this) in Heq. simpl in Heq.
  assert (Hq : (inject_Z a == 0)%Q) by (rewrite <- (Qred_correct (inject_Z a)), Heq; reflexivity).
  unfold Qeq in Hq. simpl in Hq. lia.
Qed.

Lemma Qsum_of_int (l : list Z) :
  Qsum (map (fun z => Q2Qc (inject_Z z)) l) = Q2Qc (inject_Z (fold_right Z.add 0%Z l)).
Proof.
  induction l as [|x l IH]; simpl; [done|]. by rewrite of_int_add, IH.
Qed.

Lemma Qsum_div (l : list Qc) (c : Qc) :
  Qsum (map (fun x => x / c) l) = Qsum l / c.
Proof.
  induction l as [|x l IH]; simpl.
  - unfold Qcdiv. ring.
  - rewrite IH. unfold Qcdiv. ring.
Qed.

Lemma normalised_weights_sum (data_sizes : list Z) :
  let total := fold_left Z.add data_sizes 0%Z in
  total <> 0%Z ->
  Qsum (map (fun size => Q2Qc (inject_Z size) / Q2Qc (inject_Z total)) data_sizes) = 1.
Proof.
  intros total Ht.
  rewrite <- (map_map (fun z => Q2Qc (inject_Z z)) (fun x => x / Q2Qc (inject_Z total))).
  rewrite Qsum_div, Qsum_of_int.
  replace (fold_right Z.add 0%Z data_sizes) with total
    by (unfold total; rewrite fold_left_Zadd; lia).
  field. by apply of_int_nonzero.
Qed.

Lemma map_div_one (l : list Qc) : map (fun x => x / 1) l = l.
Proof.
  induction l as [|x l IH]; simpl; [done|]. rewrite IH. f_equal. field. discriminate.
Qed.

Lemma fold_left_zip_add (rs : list (list Qc)) : forall acc : list Qc,
  Forall (fun r => length r = length acc) rs ->
  fold_left (zip_with Qcplus) rs acc
  = map (fun j => default (Q2Qc 0) (acc !! j) + Qsum (column j rs)) (seq 0 (length acc)).
Proof.
  induction rs as [|r rs IH]; intros acc Hall; simpl.
  - apply list_eq. intros j. rewrite list_lookup_fmap.
    destruct (decide (j < length acc)%nat) as [Hj|Hj].
    + rewrite lookup_seq_lt by done. simpl.
      destruct (lookup_lt_is_Some_2 acc j Hj) as [x ->]. simpl. f_equal. ring.
    + rewrite lookup_seq_ge by lia. simpl. apply lookup_ge_None_2. lia.
  - apply Forall_cons in Hall as [Hr Hall].
    rewrite IH.
    2:{ rewrite length_zip_with, Hr, Nat.min_id. eapply Forall_impl; [exact Hall|].
        simpl. intros; lia. }
    rewrite length_zip_with, Hr, Nat.min_id.
    apply map_ext_in. intros j Hj. apply in_seq in Hj.
    rewrite lookup_zip_with.
    destruct (lookup_lt_is_Some_2 acc j) as [x ->]; [lia|].
    destruct (lookup_lt_is_Some_2 r j) as [y ->]; [lia|]. simpl. ring.
Qed.

Lemma np_sum_axis0_exact (r : list Qc) (rs : list (list Qc)) :
  Forall (fun r' => length r' = length r) rs ->
  np_sum_axis0 (r :: rs)
  = map (fun j => Qsum (column j (r :: rs))) (seq 0 (length r)).
Proof.
  intros Hall. simpl. by rewrite fold_left_zip_add.
Qed.

Lemma np_array_rectangular {F} `{Num F} (r : list F) (rs : list (list F)) :
  Forall (fun r' => length r' = length r) rs -> np_array (r :: rs) = Ok (r :: rs).
Proof.
  intros Hall. simpl.
  replace (forallb _ rs) with true; [done|]. symmetry. apply forallb_forall.
  intros x Hx. apply Nat.eqb_eq. rewrite Forall_forall in Hall. apply Hall.
  by apply list_elem_of_In.
Qed.

Lemma column_weighted (j : nat) (vs : list (list Qc)) (ws : list Qc) :
  column j (zip_with (fun row wi => map (fun a => a * wi) row) vs ws)
  = zip_with (fun w v => default (Q2Qc 0) (v !! j) * w) ws vs.
Proof.
  revert ws. induction vs as [|v vs IH]; intros [|w ws]; simpl; try done.
  rewrite <- IH. f_equal. rewrite list_lookup_fmap.
  destruct (v !! j); simpl; [done|]. ring.
Qed.

Lemma weighted_averaging_exact (v : list Qc) (vs : list (list Qc)) (data_sizes : list Z) :
  let total := fold_left Z.add data_sizes 0%Z in
  Forall (fun v' => length v' = length v) vs ->
  length data_sizes = length (v :: vs) ->
  total <> 0%Z ->
  weighted_averaging (v :: vs) data_sizes
  = Ok (Spec.weighted_sum
          (map (fun size => Q2Qc (inject_Z size) / Q2Qc (inject_Z total)) data_sizes)
          (v :: vs)).
Proof.
  intros total Hrect Hlen Ht. unfold weighted_averaging. fold total.
  rewrite derived_weights by done. simpl bind. cbn [mbind res_bind bind].
  set (ws := map _ data_sizes).
  assert (Hws : Qsum ws = 1) by (by apply normalised_weights_sum).
  unfold federated_averaging.
  rewrite np_array_rectangular by done. cbn [mbind res_bind bind].
  rewrite np_sum_exact. change (@fdiv Qc Qc_num) with Qcdiv.
  change (of_int (F:=Qc)) with (fun z => Q2Qc (inject_Z z)) in *.
  fold ws. rewrite Hws, map_div_one.
  unfold np_average_axis0.
  replace (length ws) with (length (v :: vs)) by (unfold ws; by rewrite length_map).
  rewrite Nat.eqb_refl. simpl negb. cbv iota.
  rewrite np_sum_exact, Hws.
  change (feqb (F:=Qc) 1 fzero) with (bool_decide (1 = Q2Qc 0)).
  rewrite bool_decide_eq_false_2 by discriminate.
  f_equal. change (@fdiv Qc Qc_num) with Qcdiv. rewrite map_div_one.
  destruct ws as [|w ws'] eqn:Ews; [simpl in Hlen; unfold ws in Ews; destruct data_sizes; simpl in *; discriminate|].
  change (@fmul Qc Qc_num) with Qcmult.
  cbn [zip_with]. rewrite np_sum_axis0_exact.
  2:{ rewrite length_map. apply Forall_forall. intros r Hr.
      apply list_elem_of_lookup in Hr as [i Hi]. rewrite lookup_zip_with in Hi.
      destruct (vs !! i) as [vi|] eqn:Evi; [|done]. simpl in Hi.
      destruct (ws' !! i); [|done]. simpl in Hi. injection Hi as <-.
      rewrite length_map. rewrite Forall_forall in Hrect. apply Hrect.
      by eapply list_elem_of_lookup_2. }
  unfold Spec.weighted_sum. cbn [head default]. rewrite length_map.
  apply map_ext_in. intros j _.
  change (map (fun a => a * w) v :: zip_with (fun row wi => map (fun a => a * wi) row) vs ws')
    with (zip_with (fun row wi => map (fun a => a * wi) row) (v :: vs) (w :: ws')).
  rewrite column_weighted. reflexivity.
Qed.

End AveragingFacts.

Section WeightedAveraging.
Import FederatedLearning.
Local Open Scope Z_scope.




End WeightedAveraging.

Section EngineFacts.
Import SMPCEngine.
Context {F : Type} `{Num F} {O : Type}.
Context (L : library (gmap string (pval F O)) F).
Context (float_of_other : O -> res F).

Lemma encrypt_parameters_eq (e : engine L) (r : entropy L) p :
  encrypt_parameters L r p e = (Ok (Contract.ciphertext L e r p), e).
Proof. reflexivity. Qed.

Lemma decrypt_parameters_state (c : text L) (e : engine L) :
  snd (decrypt_parameters L c e) = e.
Proof.
  unfold decrypt_parameters, mbind, lift, cipher_suite.
  destruct (b64decode L c); simpl; [|done].
  destruct (fernet_decrypt L (master_key L e) a); simpl; done.
Qed.

Lemma decrypt_parameters_cases (c : text L) (e : engine L) :
  (exists p, decrypt_parameters L c e = (Ok p, e)) \/
  (exists x, decrypt_parameters L c e = (Raise x, e)).
Proof.
  pose proof (decrypt_parameters_state c e) as Hs.
  destruct (decrypt_parameters L c e) as [[p|x] e'] eqn:E; simpl in Hs; subst e'.
  - left. by exists p.
  - right. by exists x.
Qed.

Lemma decrypt_ciphertext (HL : Contract.holds L) (e : engine L) (r : entropy L) p :
  Contract.numeric_params p ->
  decrypt_parameters L (Contract.ciphertext L e r p) e = (Ok p, e).
Proof.
  intros Hp. unfold decrypt_parameters, Contract.ciphertext, mbind, lift, cipher_suite.
  rewrite (Contract.base64_roundtrip L HL). cbn [fst snd].
  rewrite (Contract.fernet_roundtrip L HL).
  by rewrite (Contract.json_roundtrip L HL).
Qed.


(** *** Decrypting a batch *)

Lemma decrypt_all_ok (cs : list (text L)) (ps : list (gmap string (pval F O))) (e : engine L) :
  Forall2 (fun c p => decrypt_parameters L c e = (Ok p, e)) cs ps ->
  decrypt_all L cs e = (Ok ps, e).
Proof.
  induction 1 as [|c p cs ps Hc _ IH]; simpl; [done|].
  unfold mbind at 1. rewrite Hc. unfold mbind at 1. by rewrite IH.
Qed.

Lemma decrypt_all_fails (cs : list (text L)) (e : engine L) :
  (exists c, c ∈ cs /\ is_ok (fst (decrypt_parameters L c e)) = false) ->
  exists x, decrypt_all L cs e = (Raise x, e).
Proof.
  intros (c & Hin & Hc). induction cs as [|c' cs IH]; [by apply elem_of_nil in Hin|].
  simpl. unfold mbind at 1.
  destruct (decrypt_parameters_cases c' e) as [(p & Hp)|(x & Hx)].
  - rewrite Hp. apply elem_of_cons in Hin as [->|Hin].
    { rewrite Hp in Hc. discriminate. }
    destruct (IH Hin) as (x & Hx). exists x. unfold mbind at 1. by rewrite Hx.
  - rewrite Hx. by exists x.
Qed.

Lemma decrypt_all_state (cs : list (text L)) (e : engine L) :
  snd (decrypt_all L cs e) = e.
Proof.
  induction cs as [|c cs IH]; simpl; [done|]. unfold mbind at 1.
  destruct (decrypt_parameters_cases c e) as [(p & ->)|(x & ->)]; [|done].
  unfold mbind at 1. destruct (decrypt_all L cs e) as [[ps|x] e']; simpl in *; by subst.
Qed.

Lemma secure_aggregate_state (cs : list (text L)) (e : engine L) :
  snd (secure_aggregate L float_of_other cs e) = e.
Proof.
  unfold secure_aggregate. destruct cs as [|c cs]; [done|].
  unfold mbind. pose proof (decrypt_all_state (c :: cs) e) as Hs.
  destruct (decrypt_all L (c :: cs) e) as [[ps|x] e']; simpl in *; by subst.
Qed.

(** C7. On an empty batch, or when any payload of the batch fails to
    decrypt, [secure_aggregate] raises and returns no mapping; the empty
    batch raises [ValueError]. No call changes the engine. *)
Theorem secure_aggregate_all_or_nothing (payloads : list (text L)) (e : engine L) :
  payloads = [] \/
  (exists c, c ∈ payloads /\ is_ok (fst (decrypt_parameters L c e)) = false) ->
  (exists x, secure_aggregate L float_of_other payloads e = (Raise x, e)) /\
  (payloads = [] ->
     secure_aggregate L float_of_other payloads e = (Raise ValueError, e)) /\
  (forall payloads' e', snd (secure_aggregate L float_of_other payloads' e') = e').
Proof.
  intros Hcase. split; [|split].
  - destruct Hcase as [->|Hbad]; [by exists ValueError|].
    destruct (decrypt_all_fails payloads e Hbad) as (x & Hx).
    exists x. unfold secure_aggregate. destruct payloads as [|c cs].
    { destruct Hbad as (c & Hin & _). by apply elem_of_nil in Hin. }
    unfold mbind. by rewrite Hx.
  - by intros ->.
  - apply secure_aggregate_state.
Qed.

Lemma secure_aggregate_decrypted (cs : list (text L)) (ps : list (gmap string (pval F O)))
    (e : engine L) :
  cs <> [] ->
  Forall2 (fun c p => decrypt_parameters L c e = (Ok p, e)) cs ps ->
  secure_aggregate L float_of_other cs e = (_average_parameters float_of_other ps, e).
Proof.
  intros Hne Hall. unfold secure_aggregate. destruct cs as [|c cs]; [done|].
  unfold mbind. by rewrite (decrypt_all_ok _ _ _ Hall).
Qed.

End EngineFacts.

Section AggregationFacts.
Import SMPCEngine.
Context {F : Type} `{Num F} {O : Type}.
Context (float_of_other : O -> res F).

Lemma res_bind_Ok {A B : Type} (a : A) (f : A -> res B) : Ok a ≫= f = f a.
Proof. reflexivity. Qed.

Lemma gather_Ok {A} (m : gmap string (res (option A))) (m' : gmap string A) :
  gather m = Ok m' ->
  (forall k r, m !! k = Some r -> is_ok r = true) /\
  (forall k, m' !! k = m !! k ≫= outcome).
Proof.
  unfold gather. intros Hg.
  destruct (list_find _ (map_to_list m)) as [[i [k r]]|] eqn:Ef.
  - apply list_find_Some in Ef as (_ & Hr & _). simpl in Hr.
    destruct r; [discriminate|discriminate].
  - injection Hg as <-. split.
    + intros k r Hk. apply list_find_None in Ef. rewrite Forall_forall in Ef.
      apply elem_of_map_to_list in Hk. specialize (Ef _ Hk). simpl in Ef.
      by destruct (is_ok r).
    + intros k. by rewrite lookup_omap.
Qed.

Lemma gather_all_ok {A} (m : gmap string (res (option A))) :
  (forall k r, m !! k = Some r -> is_ok r = true) ->
  gather m = Ok (omap outcome m).
Proof.
  intros Hall. unfold gather.
  destruct (list_find _ (map_to_list m)) as [[i [k r]]|] eqn:Ef; [|done].
  apply list_find_Some in Ef as (Hin & Hr & _). simpl in Hr.
  apply list_elem_of_lookup_2, elem_of_map_to_list in Hin.
  rewrite (Hall _ _ Hin) in Hr. discriminate.
Qed.

Lemma gather_Raise {A} (m : gmap string (res (option A))) x :
  gather m = Raise x -> exists k, m !! k = Some (Raise x).
Proof.
  unfold gather. intros Hg.
  destruct (list_find _ (map_to_list m)) as [[i [k r]]|] eqn:Ef; [|discriminate].
  apply list_find_Some in Ef as (Hin & _ & _).
  apply list_elem_of_lookup_2, elem_of_map_to_list in Hin.
  destruct r; [discriminate|]. injection Hg as ->. by exists k.
Qed.

Lemma param_values_present name (ps : list (gmap string (pval F O))) :
  param_values float_of_other name ps = traverse (value_of float_of_other) (Spec.present name ps).
Proof.
  induction ps as [|p ps IH]; simpl; [done|]. unfold Spec.present. simpl.
  destruct (p !! name) as [v|]; simpl; [|exact IH].
  fold (Spec.present name ps). rewrite IH. by destruct v.
Qed.

Lemma sum_values_floats (xs : list F) : forall acc : F,
  fold_left (fun acc v => a ← acc; pv_add a v) (map VFloat xs) (Ok (VFloat acc))
  = Ok (VFloat (fold_left fadd xs acc)).
Proof.
  induction xs as [|x xs IH]; intros acc; simpl; [done|]. apply IH.
Qed.

Lemma sum_values_map_floats (xs : list F) :
  sum_values (map VFloat xs) = Ok (VFloat (py_sum xs)).
Proof. apply sum_values_floats. Qed.

Lemma average_param_scalars name (ps : list (gmap string (pval F O))) (ns : list (num F)) :
  Spec.present name ps = map PNum ns ->
  ns <> [] ->
  average_param float_of_other name ps
  = Ok (Some (AFloat (Spec.mean (map to_float ns)))).
Proof.
  intros Hpres Hne. unfold average_param. rewrite param_values_present, Hpres.
  rewrite (traverse_ok _ (fun v => match v with
                                   | PNum n => VFloat (to_float n)
                                   | _ => VFloat fzero
                                   end)).
  2:{ intros v Hv. apply list_elem_of_fmap in Hv as (n & -> & _). done. }
  rewrite map_map, <- (map_map to_float VFloat ns).
  assert (Hlen : length (map VFloat (map to_float ns)) = length (map to_float ns))
    by (by rewrite length_map).
  destruct (map to_float ns) as [|x xs] eqn:Exs.
  { destruct ns; [done|discriminate]. }
  rewrite res_bind_Ok. cbn [map].
  change (VFloat x :: map VFloat xs) with (map VFloat (x :: xs)).
  rewrite sum_values_map_floats, res_bind_Ok.
  unfold Spec.mean. by rewrite Hlen.
Qed.

Lemma average_param_lists name (ps : list (gmap string (pval F O)))
    (l : list (num F)) (ls : list (list (num F))) :
  Spec.present name ps = map PList (l :: ls) ->
  Forall (fun l' => length l' = length l) ls ->
  average_param float_of_other name ps
  = Ok (Some (AList (np_mean_axis0 (map (map to_float) (l :: ls))))).
Proof.
  intros Hpres Hlen. unfold average_param. rewrite param_values_present, Hpres.
  rewrite (traverse_ok _ (fun v => match v with
                                   | PList l => VArray (map to_float l)
                                   | _ => VFloat fzero
                                   end)).
  2:{ intros v Hv. apply list_elem_of_fmap in Hv as (n & -> & _). done. }
  rewrite map_map, res_bind_Ok. cbn [map].
  unfold rows_of.
  rewrite (traverse_ok _ (fun v => match v with VArray l => l | VFloat _ => [] end)).
  2:{ intros v Hv. apply elem_of_cons in Hv as [->|Hv]; [done|].
      apply list_elem_of_fmap in Hv as (n & -> & _). done. }
  rewrite res_bind_Ok. cbn [map]. rewrite map_map.
  rewrite np_array_rectangular.
  2:{ apply Forall_forall. intros r Hr. apply list_elem_of_fmap in Hr as (l' & -> & Hl').
      rewrite !length_map. rewrite Forall_forall in Hlen. by apply Hlen. }
  rewrite res_bind_Ok. reflexivity.
Qed.

Lemma average_param_first name (first : gmap string (pval F O)) rest o :
  is_Some (first !! name) ->
  average_param float_of_other name (first :: rest) = Ok o -> is_Some o.
Proof.
  intros [v Hv] Ha. unfold average_param in Ha.
  destruct (param_values float_of_other name (first :: rest)) as [vs|] eqn:Epv;
    [|discriminate].
  rewrite res_bind_Ok in Ha.
  assert (Hne : vs <> []).
  { rewrite param_values_present in Epv. unfold Spec.present in Epv.
    cbn [omap list_omap] in Epv. rewrite Hv in Epv. cbn [traverse] in Epv.
    destruct (value_of float_of_other v); [|discriminate]. rewrite res_bind_Ok in Epv.
    destruct (traverse (value_of float_of_other) _); [|discriminate]. rewrite res_bind_Ok in Epv.
    injection Epv as <-. discriminate. }
  destruct vs as [|[x|l] vs]; [done|..].
  - destruct (sum_values _) as [[s|s]|]; [| |discriminate];
      rewrite res_bind_Ok in Ha; injection Ha as <-; eauto.
  - destruct (rows_of _) as [rows|]; [|discriminate].
    rewrite res_bind_Ok in Ha. injection Ha as <-. eauto.
Qed.

Lemma average_parameters_Ok (first : gmap string (pval F O)) rest m :
  _average_parameters float_of_other (first :: rest) = Ok m ->
  dom m = dom first /\
  forall name, is_Some (first !! name) ->
    exists a, average_param float_of_other name (first :: rest) = Ok (Some a) /\
              m !! name = Some a.
Proof.
  unfold _average_parameters. intros Hg. apply gather_Ok in Hg as [Hok Hlook].
  assert (Hname : forall name, is_Some (first !! name) ->
            exists a, average_param float_of_other name (first :: rest) = Ok (Some a) /\
                      m !! name = Some a).
  { intros name [v Hv]. specialize (Hlook name).
    rewrite map_lookup_imap, Hv in Hlook. simpl in Hlook.
    specialize (Hok name (average_param float_of_other name (first :: rest))).
    rewrite map_lookup_imap, Hv in Hok. specialize (Hok eq_refl).
    destruct (average_param float_of_other name (first :: rest)) as [o|] eqn:Ea;
      [|discriminate].
    destruct (average_param_first name first rest o) as [a ->]; [by eexists|done|].
    exists a. done. }
  split; [|done].
  apply set_eq. intros name. rewrite !elem_of_dom. split.
  - intros [a Ha]. rewrite Hlook, map_lookup_imap in Ha.
    destruct (first !! name); [by eexists|discriminate].
  - intros Hin. destruct (Hname name Hin) as (a & _ & ->). by eexists.
Qed.

Lemma average_parameters_all_ok (first : gmap string (pval F O)) rest :
  (forall name, is_Some (first !! name) ->
     is_ok (average_param float_of_other name (first :: rest)) = true) ->
  exists m, _average_parameters float_of_other (first :: rest) = Ok m.
Proof.
  intros Hall. unfold _average_parameters. rewrite gather_all_ok; [by eexists|].
  intros k r Hk. rewrite map_lookup_imap in Hk.
  destruct (first !! k) eqn:Ek; [|discriminate]. simpl in Hk. injection Hk as <-.
  apply Hall. by eexists.
Qed.

End AggregationFacts.

Section MeanFacts.
Import SMPCEngine.
Context {F : Type} `{Num F} {O : Type}.

Lemma present_scalars name (ps : list (gmap string (pval F O))) :
  (forall p k v, p ∈ ps -> p !! k = Some v -> exists n, v = PNum n) ->
  exists ns, Spec.present name ps = map PNum ns.
Proof.
  induction ps as [|p ps IH]; intros Hall; [by exists []|].
  destruct IH as [ns Hns].
  { intros q k v Hq. apply Hall. by apply list_elem_of_further. }
  unfold Spec.present in *. cbn [omap list_omap].
  destruct (p !! name) as [v|] eqn:Ev; [|by exists ns].
  destruct (Hall p name v) as [n ->]; [apply list_elem_of_here|done|].
  exists (n :: ns). simpl. by rewrite Hns.
Qed.

Lemma present_first name (first : gmap string (pval F O)) rest v :
  first !! name = Some v ->
  Spec.present name (first :: rest) = v :: Spec.present name rest.
Proof. intros Hv. unfold Spec.present. cbn [omap list_omap]. by rewrite Hv. Qed.

End MeanFacts.

Section SecureAggregate.
Import SMPCEngine.


End SecureAggregate.

Section SymbolicFacts.
Import SMPCEngine.

Lemma symbolic_holds {F} `{Num F} {O : Type} : Contract.holds (Symbolic.lib (F:=F) (O:=O)).
Proof.
  split.
  - reflexivity.
  - intros k r t. simpl. by rewrite Nat.eqb_refl.
  - reflexivity.
Qed.

Lemma only_w_numeric x : is_finite x = true -> Contract.numeric_params (only_w x).
Proof. intros Hx. by apply map_Forall_singleton. Qed.


Example ciphertext_depends_on_iv :
  fst (encrypt_parameters L64 1%nat (only_w 1.5%float) engine64)
  <> fst (encrypt_parameters L64 2%nat (only_w 1.5%float) engine64).
Proof. simpl. unfold Contract.ciphertext. simpl. intros [= Heq]. Qed.

Lemma secure_aggregate_all_or_nothing_witness :
  (exists c, c ∈ [Contract.ciphertext L64 engine64 1%nat (only_w 1.0%float);
                  Symbolic.TRaw "corrupted"] /\
             is_ok (fst (decrypt_parameters L64 c engine64)) = false) /\
  secure_aggregate L64 no_float
    [Contract.ciphertext L64 engine64 1%nat (only_w 1.0%float); Symbolic.TRaw "corrupted"]
    engine64
  = (Raise ValueError, engine64).
Proof.
  assert (Hbad : exists c, c ∈ [Contract.ciphertext L64 engine64 1%nat (only_w 1.0%float);
                               Symbolic.TRaw "corrupted"] /\
                           is_ok (fst (decrypt_parameters L64 c engine64)) = false).
  { exists (Symbolic.TRaw "corrupted"). split; [|reflexivity].
    apply list_elem_of_further, list_elem_of_here. }
  split; [exact Hbad|].
  destruct (secure_aggregate_all_or_nothing L64 no_float
              [Contract.ciphertext L64 engine64 1%nat (only_w 1.0%float);
               Symbolic.TRaw "corrupted"] engine64 (or_intror Hbad)) as ((x & Hx) & _).
  rewrite Hx. f_equal. vm_compute in Hx. by injection Hx as <-.
Defined.



End SymbolicFacts.

Section NoiseFacts.
Import SMPCEngine.
Context {F : Type} `{Num F} {O : Type}.
Context (L : library (gmap string (pval F O)) F).

Lemma noisy_list_length scale (l : list (num F)) : forall g l' g',
  noisy_list L scale l g = Ok (l', g') -> length l' = length l.
Proof.
  induction l as [|v l IH]; intros g l' g' Hn; simpl in Hn.
  - by injection Hn as <- <-.
  - destruct (laplace L g scale) as [[noise g1]|]; [|discriminate].
    rewrite res_bind_Ok in Hn.
    destruct (noisy_list L scale l g1) as [[rest g2]|] eqn:Er; [|discriminate].
    rewrite res_bind_Ok in Hn. injection Hn as <- <-. simpl. f_equal. by eapply IH.
Qed.

Lemma noisy_list_total scale (l : list (num F)) :
  (forall g, is_ok (laplace L g scale) = true) ->
  forall g, exists l' g', noisy_list L scale l g = Ok (l', g').
Proof.
  intros Hdraw. induction l as [|v l IH]; intros g; simpl; [by eexists _, _|].
  specialize (Hdraw g). destruct (laplace L g scale) as [[noise g1]|]; [|discriminate].
  rewrite res_bind_Ok. destruct (IH g1) as (rest & g2 & ->). rewrite res_bind_Ok.
  by eexists _, _.
Qed.

Lemma noisy_items_frame scale (items : list (string * pval F O)) : forall g items' g',
  noisy_items L scale items g = Ok (items', g') ->
  Forall2 (fun kv kv' => fst kv' = fst kv /\ Spec.perturbed (snd kv) (snd kv')) items items'.
Proof.
  induction items as [|[k v] items IH]; intros g items' g' Hn; simpl in Hn.
  - injection Hn as <- <-. constructor.
  - destruct (match v with
              | PNum n => _
              | PList l => _
              | POther o => _
              end) as [[noisy g1]|] eqn:Ev; [|discriminate].
    rewrite res_bind_Ok in Hn.
    destruct (noisy_items L scale items g1) as [[rest g2]|] eqn:Er; [|discriminate].
    rewrite res_bind_Ok in Hn. injection Hn as <- <-.
    constructor; [|by eapply IH]. split; [done|]. simpl.
    destruct v as [n|l|o]; simpl.
    + destruct (laplace L g scale) as [[noise g3]|]; [|discriminate].
      rewrite res_bind_Ok in Ev. injection Ev as <- <-. by eexists.
    + destruct (noisy_list L scale l g) as [[l' g3]|] eqn:El; [|discriminate].
      rewrite res_bind_Ok in Ev. injection Ev as <- <-.
      eexists. split; [done|]. by eapply noisy_list_length.
    + by injection Ev as <- <-.
Qed.

Lemma noisy_items_total scale (items : list (string * pval F O)) :
  (forall g, is_ok (laplace L g scale) = true) ->
  forall g, exists items' g', noisy_items L scale items g = Ok (items', g').
Proof.
  intros Hdraw. induction items as [|[k v] items IH]; intros g; simpl; [by eexists _, _|].
  assert (Hv : exists noisy g1,
             match v with
             | PNum n =>
                 laplace L g scale ≫= (fun '(noise, g) =>
                 mret (PNum (NFloat (fadd (to_float n) noise)), g))
             | PList l =>
                 noisy_list L scale l g ≫= (fun '(noisy_value, g) =>
                 mret (PList noisy_value, g))
             | POther o => mret (POther o, g)
             end = Ok (noisy, g1)).
  { destruct v as [n|l|o].
    - specialize (Hdraw g). destruct (laplace L g scale) as [[noise g1]|]; [|discriminate].
      by eexists _, _.
    - destruct (noisy_list_total scale l Hdraw g) as (l' & g1 & ->). by eexists _, _.
    - by eexists _, _. }
  destruct Hv as (noisy & g1 & ->). rewrite res_bind_Ok.
  destruct (IH g1) as (rest & g2 & ->). rewrite res_bind_Ok. by eexists _, _.
Qed.

Lemma frame_lookup (items items' : list (string * pval F O)) :
  NoDup (items.*1) ->
  Forall2 (fun kv kv' => fst kv' = fst kv /\ Spec.perturbed (snd kv) (snd kv')) items items' ->
  items'.*1 = items.*1 /\
  forall k v, (k, v) ∈ items -> exists v', (k, v') ∈ items' /\ Spec.perturbed v v'.
Proof.
  intros _ Hall. induction Hall as [|[k v] [k' v'] items items' [Hk Hv] _ [IH1 IH2]]; simpl.
  - split; [done|]. intros k v Hin. by apply elem_of_nil in Hin.
  - simpl in Hk, Hv. subst k'. split; [f_equal; exact IH1|].
    intros k0 v0 Hin. apply elem_of_cons in Hin as [[= -> ->]|Hin].
    + exists v'. split; [apply list_elem_of_here|done].
    + destruct (IH2 _ _ Hin) as (v1 & Hin1 & Hp). exists v1.
      split; [by apply list_elem_of_further|done].
Qed.


End NoiseFacts.


Example add_differential_privacy_noise_zero_epsilon :
  SMPCEngine.add_differential_privacy_noise L64
    {[ "w"%string := SMPCEngine.PNum (SMPCEngine.NInt 1) ]} 0%float 1.0%float [0.25%float]
  = Raise ZeroDivisionError.
Proof. vm_compute. reflexivity. Qed.

(** * Further properties

    What the methods do beyond the statements above: the ledgers the
    operations reach, the registry of the coordinator, the averages in
    exact arithmetic, and the hashes and aggregates of the engine. *)

Section DigestFacts.

Lemma be_bytes_length n x : length (Sha256.be_bytes n x) = n.
Proof. induction n as [|n IH]; simpl; [done|]. by rewrite IH. Qed.

Lemma be_bytes_range n x : Forall (fun b => 0 <= b < 256) (Sha256.be_bytes n x).
Proof.
  induction n as [|n IH]; simpl; constructor; [|done].
  apply Z.mod_pos_bound. lia.
Qed.

Lemma blocks_length n : forall h bs,
  length h = 8%nat -> length (Sha256.blocks n h bs) = 8%nat.
Proof.
  induction n as [|n IH]; intros h bs Hh; simpl; [done|].
  destruct bs; [done|]. by apply IH.
Qed.

Lemma digest_length msg : length (Sha256.digest msg) = 32%nat.
Proof.
  unfold Sha256.digest. cbv zeta.
  pose proof (blocks_length (length (Sha256.pad msg)) Sha256.H0 (Sha256.pad msg) eq_refl) as Hl.
  destruct (Sha256.blocks _ _ _) as [|a [|b [|c [|d [|e [|f [|g [|h [|? ?]]]]]]]]];
    try discriminate.
  cbn [flat_map]. rewrite !length_app, !be_bytes_length. done.
Qed.

Lemma digest_range msg : Forall (fun b => 0 <= b < 256) (Sha256.digest msg).
Proof.
  unfold Sha256.digest. cbv zeta.
  induction (Sha256.blocks _ _ _) as [|w ws IH]; cbn [flat_map]; [constructor|].
  apply Forall_app. split; [apply be_bytes_range|done].
Qed.

Lemma hex_length bs : String.length (Sha256.hex bs) = (2 * length bs)%nat.
Proof. induction bs as [|b bs IH]; simpl; [done|]. rewrite IH. lia. Qed.

Lemma hex_digit_is_hex d : 0 <= d < 16 -> is_hex_char (Sha256.hex_digit d) = true.
Proof.
  intros Hd.
  assert (Hc : d = 0 \/ d = 1 \/ d = 2 \/ d = 3 \/ d = 4 \/ d = 5 \/ d = 6 \/ d = 7 \/
               d = 8 \/ d = 9 \/ d = 10 \/ d = 11 \/ d = 12 \/ d = 13 \/ d = 14 \/ d = 15)
    by lia.
  repeat (destruct Hc as [->|Hc]; [reflexivity|]). by subst.
Qed.

Lemma hex_is_hex bs :
  Forall (fun b => 0 <= b < 256) bs ->
  forallb is_hex_char (list_ascii_of_string (Sha256.hex bs)) = true.
Proof.
  induction 1 as [|b bs Hb _ IH]; [done|].
  cbn [Sha256.hex list_ascii_of_string forallb].
  rewrite IH, !hex_digit_is_hex; [done| |].
  - apply Z.mod_pos_bound. lia.
  - split; [apply Z.div_pos; lia|apply Z.div_lt_upper_bound; lia].
Qed.

Lemma hexdigest_is_digest s : is_digest (Sha256.hexdigest s).
Proof.
  split.
  - unfold Sha256.hexdigest. by rewrite hex_length, digest_length.
  - apply hex_is_hex, digest_range.
Qed.

Lemma prefix_length a : forall b, String.prefix a b = true -> (String.length a <= String.length b)%nat.
Proof.
  induction a as [|c a IH]; intros b Hp; simpl; [lia|].
  destruct b as [|c' b]; [discriminate|]. simpl in Hp.
  destruct (ascii_dec c c'); [|discriminate]. apply IH in Hp. simpl. lia.
Qed.

Lemma prefix_empty s : String.prefix EmptyString s = true.
Proof. by destruct s. Qed.

Lemma zeros_length d : String.length (BlockchainLedger.zeros d) = Z.to_nat d.
Proof.
  unfold BlockchainLedger.zeros. induction (Z.to_nat d) as [|n IH]; simpl; [done|].
  by rewrite IH.
Qed.

End DigestFacts.

Section ReachFacts.
Import BlockchainLedger.

Lemma pow_loop_first fuel d bc n h :
  meets_difficulty d h = true -> pow_loop fuel d bc n h = Some h.
Proof. intros Hm. destruct fuel; simpl; by rewrite Hm. Qed.

Lemma pow_loop_digest fuel : forall d bc n s h,
  pow_loop fuel d bc n (Sha256.hexdigest s) = Some h -> is_digest h.
Proof.
  induction fuel as [|fuel IH]; intros d bc n s h; simpl;
    destruct (meets_difficulty d (Sha256.hexdigest s)); try discriminate.
  - intros [= <-]. apply hexdigest_is_digest.
  - intros [= <-]. apply hexdigest_is_digest.
  - apply IH.
Qed.

Lemma verify_mined (n : Z) (now : string) (txs : list transaction)
    (prev : option string) (d : Z) (fuel : nat) (h : string) :
  _proof_of_work fuel d (Block n now txs prev None 0) = Some h ->
  is_digest h /\
  meets_difficulty d h = true /\
  _verify_block_integrity (Block n now txs prev (Some h) 0)
  = meets_difficulty d (_calculate_hash (Block n now txs prev (Some h) 0)).
Proof.
  intros Hpow. unfold _proof_of_work in Hpow.
  assert (Hh : meets_difficulty d h = true) by (by eapply pow_loop_meets).
  split; [by eapply pow_loop_digest|]. split; [done|].
  unfold _verify_block_integrity. cbn [hash set_hash block_number timestamp transactions
                                       previous_hash nonce].
  change (_calculate_hash (Block n now txs prev (Some h) 0))
    with (_calculate_hash (Block n now txs prev None 0)).
  destruct (meets_difficulty d (_calculate_hash (Block n now txs prev None 0))) eqn:Em.
  - rewrite (pow_loop_first _ _ _ _ _ Em) in Hpow. injection Hpow as <-.
    by apply bool_decide_eq_true.
  - apply bool_decide_eq_false. intros [= Heq].
    change (_calculate_hash _) with (_calculate_hash (Block n now txs prev None 0)) in Heq.
    congruence.
Qed.

Lemma mine_block_cases fuel now l r l' :
  mine_block fuel now l = Some (r, l') ->
  (l' = l /\ pending_transactions l = [] /\ r = Ok None) \/
  (l' = l /\ chain l = [] /\ r = Raise IndexError) \/
  (exists last_block h,
     pending_transactions l <> [] /\
     last (chain l) = Some last_block /\
     _proof_of_work fuel (difficulty l)
       (Block (Z.of_nat (length (chain l))) now (pending_transactions l)
              (hash last_block) None 0) = Some h /\
     r = Ok (Some (Block (Z.of_nat (length (chain l))) now (pending_transactions l)
                         (hash last_block) (Some h) 0)) /\
     l' = Ledger (chain l ++ [Block (Z.of_nat (length (chain l))) now
                                (pending_transactions l) (hash last_block) (Some h) 0])
                 [] (difficulty l)).
Proof.
  unfold mine_block. destruct (pending_transactions l) as [|t ts] eqn:Ep.
  { intros [= <- <-]. by left. }
  destruct (py_getitem (chain l) (-1)) as [lb|e] eqn:Eg.
  - destruct (_proof_of_work _ _ _) as [h|] eqn:Epow; [|discriminate].
    intros [= <- <-]. right. right. exists lb, h.
    split; [discriminate|]. split; [by apply py_getitem_last|]. done.
  - intros [= <- <-]. right. left. split; [done|].
    destruct (chain l) as [|b c] eqn:Ec.
    + split; [done|]. by vm_compute in Eg; injection Eg as <-.
    + destruct (py_getitem_negative (b :: c) (-1)) as (x & _ & Hx);
        [simpl length; lia|]. congruence.
Qed.

Lemma init_chain now :
  chain (init now) = [Block 0 now [] (Some "0"%string)
                        (Some (_calculate_hash (Block 0 now [] (Some "0"%string) None 0))) 0].
Proof. reflexivity. Qed.

Lemma reaches_invariant log l :
  reaches log l ->
  well_formed l /\
  flat_map transactions (chain l) ++ pending_transactions l = log.
Proof.
  induction 1 as [now|log l now1 now2 mh uid inst Hr [IHw IHt]
                  |log l l' fuel now r Hr [IHw IHt] Hm].
  - split; [|done]. split; [done|]. split.
    { eexists _, _. split; [apply init_chain|]. repeat split.
      unfold _verify_block_integrity. by apply bool_decide_eq_true. }
    split.
    + intros [|i] b Hb; [|done]. rewrite init_chain in Hb. by injection Hb as <-.
    + intros i cur prev Hc. by rewrite init_chain in Hc.
  - split; [exact IHw|]. simpl. by rewrite app_assoc, IHt.
  - destruct (mine_block_cases _ _ _ _ _ Hm)
      as [(-> & _ & _)|[(-> & _ & _)|(lb & h & Hne & Hlast & Hpow & _ & ->)]];
      [done|done|].
    destruct IHw as (Hd & (g & rest & Hg & Hgt & Hgp & Hgv) & Hnum & Hlink).
    rewrite Hd in Hpow.
    destruct (verify_mined _ _ _ _ _ _ _ Hpow) as (Hdig & Hh & Hv).
    set (b := Block (Z.of_nat (length (chain l))) now (pending_transactions l)
                    (hash lb) (Some h) 0) in *.
    split; [|simpl; rewrite flat_map_app; simpl; by rewrite app_nil_r, app_nil_r].
    split; [done|]. split.
    { exists g, (rest ++ [b]). simpl. rewrite Hg. done. }
    split.
    + intros i x Hx. simpl in Hx. apply lookup_app_Some in Hx as [Hx|[Hi Hx]].
      * by apply Hnum.
      * apply list_lookup_singleton_Some in Hx as [Hi0 <-]. simpl.
        split; [|done]. f_equal. lia.
    + intros i cur prev Hc Hp. simpl in Hc, Hp.
      apply lookup_app_Some in Hc as [Hc|[Hi Hc]].
      * apply lookup_app_Some in Hp as [Hp|[Hi' _]].
        -- by apply (Hlink i).
        -- apply lookup_lt_Some in Hc. lia.
      * apply list_lookup_singleton_Some in Hc as [Hi0 <-].
        assert (Hprev : prev = lb).
        { rewrite lookup_app_l in Hp by lia. rewrite last_lookup in Hlast.
          replace (Init.Nat.pred (length (chain l))) with i in Hlast by lia. congruence. }
        subst prev. split; [done|]. split; [done|]. exists h. done.
Qed.

End ReachFacts.

Section MiningEdges.
Import BlockchainLedger.

Lemma meets_difficulty_long d s :
  64 < d -> meets_difficulty d (Sha256.hexdigest s) = false.
Proof.
  intros Hd. destruct (meets_difficulty d (Sha256.hexdigest s)) eqn:Em; [|done].
  apply prefix_length in Em. rewrite zeros_length in Em.
  destruct (hexdigest_is_digest s) as [Hl _]. lia.
Qed.

Lemma pow_loop_long fuel : forall d bc n s,
  64 < d -> pow_loop fuel d bc n (Sha256.hexdigest s) = None.
Proof.
  induction fuel as [|fuel IH]; intros d bc n s Hd; simpl;
    rewrite meets_difficulty_long by done; [done|].
  by apply IH.
Qed.





End MiningEdges.

Section ReachableLedgers.
Import BlockchainLedger.

Lemma reaches_sealed2 : reaches [Example.tx1; Example.tx2] Example.sealed2.
Proof.
  pose proof (reaches_init "2024-01-01T00:00:00") as H0. rewrite example_fresh in H0.
  pose proof (reaches_add _ _ "2024-01-01T00:01:00" "2024-01-01T00:01:00.000012"
                "71ba379fb295ca37754deadd175c747b02b0350cca98776ca8bcf3b87bde8abf" 7
                "City Hospital" H0) as H1.
  rewrite example_pending1 in H1. simpl in H1.
  pose proof (reaches_mine _ _ _ _ _ _ H1 example_sealed1) as H2.
  pose proof (reaches_add _ _ "2024-01-01T00:06:00" "2024-01-01T00:06:00.000015"
                "e780c26d329c52267504107ca259b6c76179a38807969ec226753452f8b5809f" 8
                "Central Medical Center" H2) as H3.
  rewrite example_pending2 in H3. simpl in H3.
  exact (reaches_mine _ _ _ _ _ _ H3 example_sealed2).
Qed.

Lemma reaches_skewed : reaches [Example.tx1] Example.skewed.
Proof.
  pose proof (reaches_init "2024-01-01T00:00:00") as H0. rewrite example_fresh in H0.
  pose proof (reaches_add _ _ "2024-01-01T00:01:00" "2024-01-01T00:01:00.000012"
                "71ba379fb295ca37754deadd175c747b02b0350cca98776ca8bcf3b87bde8abf" 7
                "City Hospital" H0) as H1.
  rewrite example_pending1 in H1. simpl in H1.
  exact (reaches_mine _ _ _ _ _ _ H1 example_skewed).
Qed.

(** X1. A new ledger holds exactly the genesis block: number 0, no transactions,
    previous hash ['0'], nonce 0, and a hash that is the SHA-256 digest of
    the block itself, 64 lower-case hexadecimal characters. Nothing is
    pending, the difficulty is 2 and the chain verifies. *)
Theorem fresh_ledger_genesis (now : string) :
  exists g,
    chain (init now) = [g] /\
    block_number g = 0 /\ timestamp g = now /\ transactions g = [] /\
    previous_hash g = Some "0"%string /\ nonce g = 0 /\
    hash g = Some (_calculate_hash g) /\
    is_digest (_calculate_hash g) /\
    _verify_block_integrity g = true /\
    pending_transactions (init now) = [] /\
    difficulty (init now) = 2 /\
    verify_chain_integrity (init now) = Results true 1 [] [].
Proof.
  eexists. split; [apply init_chain|]. repeat split; try reflexivity.
  - apply (proj1 (hexdigest_is_digest _)).
  - apply (proj2 (hexdigest_is_digest _)).
  - unfold _verify_block_integrity. by apply bool_decide_eq_true.
Qed.

(** X2. On every ledger the constructor, [add_transaction] and [mine_block]
    produce, the transactions of the blocks followed by the pending ones
    are the transactions submitted, each once and in submission order. *)
Theorem no_transaction_lost (log : list transaction) (l : ledger) :
  reaches log l ->
  flat_map transactions (chain l) ++ pending_transactions l = log.
Proof. intros Hr. by destruct (reaches_invariant log l Hr). Qed.

Lemma no_transaction_lost_witness :
  reaches [Example.tx1; Example.tx2] Example.sealed2 /\
  flat_map transactions (chain Example.sealed2) ++ pending_transactions Example.sealed2
  = [Example.tx1; Example.tx2].
Proof.
  split; [exact reaches_sealed2|].
  exact (no_transaction_lost _ _ reaches_sealed2).
Defined.

Lemma reachable_links_aux (log : list transaction) (l : ledger) :
  reaches log l -> broken_links (verify_chain_integrity l) = [].
Proof.
  intros Hr. destruct (reaches_invariant log l Hr) as [(_ & _ & _ & Hlink) _].
  destruct (broken_links (verify_chain_integrity l)) as [|z zs] eqn:Eb; [done|].
  pose proof (verify_chain_integrity_spec l) as (_ & Hspec & _).
  rewrite Eb in Hspec.
  destruct (List.filter _ _) as [|i is'] eqn:Ef; [discriminate|].
  assert (Hin : In i (List.filter (link_fails (chain l)) (seq 1 (length (chain l) - 1))))
    by (rewrite Ef; by left).
  apply filter_In in Hin as [Hi Hf]. apply in_seq in Hi.
  destruct i as [|i]; [lia|]. unfold link_fails in Hf.
  destruct (chain l !! S i) as [cur|] eqn:Ec; [|discriminate].
  replace (S i - 1)%nat with i in Hf by lia.
  destruct (chain l !! i) as [prev|] eqn:Ep; [|discriminate].
  destruct (Hlink i cur prev Ec Ep) as (Hl & _).
  apply negb_true_iff, bool_decide_eq_false in Hf. done.
Qed.

Lemma reachable_invalid_aux (log : list transaction) (l : ledger) (i : nat) :
  reaches log l ->
  (Z.of_nat i ∈ invalid_blocks (verify_chain_integrity l) <->
   (0 < i)%nat /\
   exists b, chain l !! i = Some b /\
             meets_difficulty 2 (_calculate_hash b) = false).
Proof.
  intros Hr. destruct (reaches_invariant log l Hr) as [(_ & _ & _ & Hlink) _].
  rewrite elem_of_invalid_blocks. split.
  - intros [Hi (b & Hb & Hv)]. split; [done|]. exists b. split; [done|].
    destruct i as [|i]; [lia|].
    destruct (lookup_lt_is_Some_2 (chain l) i) as [prev Hp].
    { apply lookup_lt_Some in Hb. lia. }
    destruct (Hlink i b prev Hb Hp) as (_ & _ & h & _ & _ & _ & Heq). congruence.
  - intros [Hi (b & Hb & Hm)]. split; [done|]. exists b. split; [done|].
    destruct i as [|i]; [lia|].
    destruct (lookup_lt_is_Some_2 (chain l) i) as [prev Hp].
    { apply lookup_lt_Some in Hb. lia. }
    destruct (Hlink i b prev Hb Hp) as (_ & _ & h & _ & _ & _ & Heq). congruence.
Qed.

(** X3. On a ledger the operations produce, [verify_chain_integrity] finds no
    broken link: every block names the hash of the block before. Block
    [i] has number [i], nonce 0 and a 64-character hexadecimal hash;
    every block after the genesis block holds at least one transaction
    and a hash with the two leading zeros; and [get_block] finds every
    index in range. *)
Theorem reachable_chain_is_linked (log : list transaction) (l : ledger) :
  reaches log l ->
  broken_links (verify_chain_integrity l) = [] /\
  (forall i cur prev, chain l !! S i = Some cur -> chain l !! i = Some prev ->
     previous_hash cur = hash prev) /\
  (forall i b, chain l !! i = Some b ->
     block_number b = Z.of_nat i /\ nonce b = 0 /\
     exists h, hash b = Some h /\ is_digest h) /\
  (forall i b, chain l !! S i = Some b ->
     transactions b <> [] /\
     exists h, hash b = Some h /\ meets_difficulty 2 h = true) /\
  (forall n, 0 <= n < Z.of_nat (length (chain l)) ->
     exists b, get_block l n = Ok (Some b) /\ block_number b = n).
Proof.
  intros Hr. destruct (reaches_invariant log l Hr) as [(Hd & Hg & Hnum & Hlink) _].
  split; [by eapply reachable_links_aux|]. split.
  { intros i cur prev Hc Hp. by destruct (Hlink i cur prev Hc Hp). }
  split; [|split].
  - intros i b Hi. destruct (Hnum i b Hi) as [Hn Hz]. split; [done|]. split; [done|].
    destruct i as [|i].
    + destruct Hg as (g & rest & Hc & _ & _ & Hv). rewrite Hc in Hi. injection Hi as <-.
      unfold _verify_block_integrity in Hv. apply bool_decide_eq_true in Hv.
      eexists. split; [exact Hv|]. apply hexdigest_is_digest.
    + destruct (lookup_lt_is_Some_2 (chain l) i) as [prev Hp].
      { apply lookup_lt_Some in Hi. lia. }
      destruct (Hlink i b prev Hi Hp) as (_ & _ & h & Hh & Hdig & _).
      by exists h.
  - intros i b Hi.
    destruct (lookup_lt_is_Some_2 (chain l) i) as [prev Hp].
    { apply lookup_lt_Some in Hi. lia. }
    destruct (Hlink i b prev Hi Hp) as (_ & Hne & h & Hh & _ & Hm & _).
    split; [done|]. by exists h.
  - intros n Hn. destruct (get_block_in_range l n Hn) as (b & Hb & Hget).
    exists b. split; [done|]. destruct (Hnum _ _ Hb) as [-> _]. lia.
Qed.

Lemma reachable_chain_is_linked_witness :
  reaches [Example.tx1; Example.tx2] Example.sealed2 /\
  broken_links (verify_chain_integrity Example.sealed2) = [].
Proof.
  split; [exact reaches_sealed2|].
  exact (proj1 (reachable_chain_is_linked _ _ reaches_sealed2)).
Defined.

(** X4. On a ledger the operations produce, [verify_chain_integrity] lists
    block [i] as invalid exactly when the hash of the block as stored
    (nonce 0) lacks the two leading zeros, that is when proof-of-work had
    to move past nonce 0; the chain is valid exactly when that never
    happened. *)
Theorem reachable_invalid_blocks (log : list transaction) (l : ledger) :
  reaches log l ->
  let r := verify_chain_integrity l in
  (forall i : nat, Z.of_nat i ∈ invalid_blocks r <->
     (0 < i)%nat /\
     exists b, chain l !! i = Some b /\
               meets_difficulty 2 (_calculate_hash b) = false) /\
  (valid r = true <->
   forall i b, chain l !! S i = Some b ->
     meets_difficulty 2 (_calculate_hash b) = true).
Proof.
  intros Hr r. split; [intros i; by apply (reachable_invalid_aux log)|].
  unfold r. split.
  - intros Hv i b Hb. destruct (meets_difficulty 2 (_calculate_hash b)) eqn:Em; [done|].
    apply valid_iff in Hv as [Hinv _].
    assert (Hin : Z.of_nat (S i) ∈ invalid_blocks (verify_chain_integrity l)).
    { apply (reachable_invalid_aux log l (S i) Hr). split; [lia|]. by exists b. }
    rewrite Hinv in Hin. by apply elem_of_nil in Hin.
  - intros Hall. apply valid_iff. split; [|by eapply reachable_links_aux].
    destruct (invalid_blocks (verify_chain_integrity l)) as [|z zs] eqn:Ei; [done|].
    pose proof (verify_chain_integrity_spec l) as (Hspec & _). rewrite Ei in Hspec.
    destruct (List.filter _ _) as [|i is'] eqn:Ef; [discriminate|].
    injection Hspec as -> _.
    assert (Hin : Z.of_nat i ∈ invalid_blocks (verify_chain_integrity l))
      by (rewrite Ei; left).
    apply (reachable_invalid_aux log l i Hr) in Hin as [Hi (b & Hbi & Hm)].
    destruct i as [|i]; [lia|]. rewrite (Hall i b Hbi) in Hm. discriminate.
Qed.

Lemma reachable_invalid_blocks_witness :
  reaches [Example.tx1] Example.skewed /\
  1 ∈ invalid_blocks (verify_chain_integrity Example.skewed).
Proof.
  split; [exact reaches_skewed|].
  apply (proj1 (reachable_invalid_blocks [Example.tx1] Example.skewed reaches_skewed) 1%nat).
  split; [lia|]. exists Example.skewed_block. split; [reflexivity|].
  vm_compute. reflexivity.
Defined.

(** *** Looking a hash up *)

Lemma verify_hash_in_true mh b txs :
  verify_hash_in mh b txs = true <->
  _verify_block_integrity b = true /\ exists t, t ∈ txs /\ model_hash t = mh.
Proof.
  induction txs as [|t txs IH]; simpl.
  - split; [discriminate|]. intros [_ (t & Ht & _)]. by apply elem_of_nil in Ht.
  - case_bool_decide as Hm.
    + destruct (_verify_block_integrity b) eqn:Ev.
      * split; [|done]. intros _. split; [done|]. exists t. split; [left|done].
      * rewrite IH. split; [by intros [? _]|by intros [? _]].
    + rewrite IH. split.
      * intros [Hv (t' & Ht' & Hmh)]. split; [done|]. exists t'. split; [by right|done].
      * intros [Hv (t' & Ht' & Hmh)]. split; [done|]. exists t'. split; [|done].
        apply elem_of_cons in Ht' as [->|Ht']; [done|done].
Qed.

Lemma verify_hash_from_true mh bs :
  verify_hash_from mh bs = true <->
  exists b t, b ∈ bs /\ t ∈ transactions b /\ model_hash t = mh /\
              _verify_block_integrity b = true.
Proof.
  induction bs as [|b bs IH]; simpl.
  - split; [discriminate|]. intros (b & t & Hb & _). by apply elem_of_nil in Hb.
  - destruct (verify_hash_in mh b (transactions b)) eqn:Ein.
    + split; [|done]. intros _. apply verify_hash_in_true in Ein as [Hv (t & Ht & Hm)].
      exists b, t. split; [left|done].
    + rewrite IH. split.
      * intros (b' & t & Hb' & Ht & Hm & Hv). exists b', t. split; [by right|done].
      * intros (b' & t & Hb' & Ht & Hm & Hv).
        apply elem_of_cons in Hb' as [->|Hb']; [|by exists b', t].
        assert (verify_hash_in mh b (transactions b) = true)
          by (apply verify_hash_in_true; split; [done|by exists t]).
        congruence.
Qed.

(** X8. [verify_hash] answers [True] exactly when some block of the chain
    that passes its own integrity check holds a transaction with that
    model hash. Pending transactions do not count: [add_transaction]
    does not change the answer, and a new ledger verifies no hash. *)
Theorem verify_hash_spec (mh : string) (l : ledger) :
  (verify_hash mh l = true <->
   exists b t, b ∈ chain l /\ t ∈ transactions b /\ model_hash t = mh /\
               _verify_block_integrity b = true) /\
  (forall now1 now2 mh' uid inst,
     verify_hash mh (snd (add_transaction now1 now2 mh' uid inst l)) = verify_hash mh l) /\
  (forall now, verify_hash mh (init now) = false).
Proof.
  split; [apply verify_hash_from_true|]. split; [done|].
  intros now. reflexivity.
Qed.

(** X9. On a ledger the operations produce, [verify_hash] finds a model hash
    exactly when a block holding it has, as stored with nonce 0, a hash
    with the two leading zeros: a hash mined into a block whose
    proof-of-work moved past nonce 0 is reported as not verified. *)
Theorem reachable_verify_hash (log : list transaction) (l : ledger) (mh : string) :
  reaches log l ->
  (verify_hash mh l = true <->
   exists i b t, chain l !! i = Some b /\ t ∈ transactions b /\ model_hash t = mh /\
                 meets_difficulty 2 (_calculate_hash b) = true).
Proof.
  intros Hr. destruct (reaches_invariant log l Hr) as [(_ & Hg & _ & Hlink) _].
  unfold verify_hash. rewrite verify_hash_from_true. split.
  - intros (b & t & Hb & Ht & Hm & Hv).
    apply list_elem_of_lookup in Hb as [i Hi]. exists i, b, t.
    split; [done|]. split; [done|]. split; [done|].
    destruct i as [|i].
    + destruct Hg as (g & rest & Hc & Hgt & _). rewrite Hc in Hi. injection Hi as <-.
      rewrite Hgt in Ht. by apply elem_of_nil in Ht.
    + destruct (lookup_lt_is_Some_2 (chain l) i) as [prev Hp].
      { apply lookup_lt_Some in Hi. lia. }
      destruct (Hlink i b prev Hi Hp) as (_ & _ & h & _ & _ & _ & Heq). congruence.
  - intros (i & b & t & Hi & Ht & Hm & Hmeets).
    exists b, t. split; [by eapply list_elem_of_lookup_2|]. split; [done|]. split; [done|].
    destruct i as [|i].
    + destruct Hg as (g & rest & Hc & Hgt & _). rewrite Hc in Hi. injection Hi as <-.
      rewrite Hgt in Ht. by apply elem_of_nil in Ht.
    + destruct (lookup_lt_is_Some_2 (chain l) i) as [prev Hp].
      { apply lookup_lt_Some in Hi. lia. }
      destruct (Hlink i b prev Hi Hp) as (_ & _ & h & _ & _ & _ & Heq). congruence.
Qed.

Lemma reachable_verify_hash_witness :
  reaches [Example.tx1] Example.skewed /\
  reaches [Example.tx1; Example.tx2] Example.sealed2 /\
  verify_hash (model_hash Example.tx1) Example.skewed = false /\
  verify_hash (model_hash Example.tx1) Example.sealed2 = true.
Proof.
  split; [exact reaches_skewed|]. split; [exact reaches_sealed2|]. split.
  - destruct (verify_hash (model_hash Example.tx1) Example.skewed) eqn:Ev; [|done].
    apply (reachable_verify_hash _ _ _ reaches_skewed) in Ev
      as (i & b & t & Hi & Ht & Hm & Hmeets).
    destruct i as [|[|i]]; simpl in Hi; injection Hi as <- || discriminate.
    + by apply elem_of_nil in Ht.
    + vm_compute in Hmeets. discriminate.
  - apply (reachable_verify_hash _ _ _ reaches_sealed2).
    exists 1%nat, Example.block1, Example.tx1.
    split; [reflexivity|]. split; [left|]. split; [reflexivity|].
    vm_compute. reflexivity.
Defined.

(** X10. [get_transaction_history] returns one entry for every transaction of
    the chain with that model hash, carrying the number, hash and
    timestamp of its block. It is non-empty whenever [verify_hash]
    succeeds, and pending transactions never appear in it. *)
Theorem get_transaction_history_spec (mh : string) (l : ledger) :
  (forall e, e ∈ get_transaction_history mh l <->
     exists b, b ∈ chain l /\ entry_transaction e ∈ transactions b /\
               model_hash (entry_transaction e) = mh /\
               e = HistoryEntry (block_number b) (hash b) (timestamp b)
                     (entry_transaction e)) /\
  (verify_hash mh l = true -> get_transaction_history mh l <> []) /\
  (forall now1 now2 mh' uid inst,
     get_transaction_history mh (snd (add_transaction now1 now2 mh' uid inst l))
     = get_transaction_history mh l).
Proof.
  assert (Hmem : forall e, e ∈ get_transaction_history mh l <->
     exists b, b ∈ chain l /\ entry_transaction e ∈ transactions b /\
               model_hash (entry_transaction e) = mh /\
               e = HistoryEntry (block_number b) (hash b) (timestamp b)
                     (entry_transaction e)).
  { intros e. unfold get_transaction_history.
    rewrite list_elem_of_In, in_flat_map. split.
    - intros (b & Hb & He). apply in_map_iff in He as (t & <- & Ht).
      apply filter_In in Ht as [Ht Hm]. apply bool_decide_eq_true in Hm.
      exists b. simpl. split; [by apply list_elem_of_In|].
      split; [by apply list_elem_of_In|]. done.
    - intros (b & Hb & Ht & Hm & ->). exists b. split; [by apply list_elem_of_In|].
      apply in_map_iff. exists (entry_transaction e). simpl. split; [done|].
      apply filter_In. split; [by apply list_elem_of_In|]. by apply bool_decide_eq_true. }
  split; [exact Hmem|]. split; [|done].
  intros Hv Hnil. apply verify_hash_from_true in Hv as (b & t & Hb & Ht & Hm & _).
  assert (Hin : HistoryEntry (block_number b) (hash b) (timestamp b) t
                ∈ get_transaction_history mh l).
  { apply Hmem. exists b. simpl. done. }
  rewrite Hnil in Hin. by apply elem_of_nil in Hin.
Qed.

(** X11. On a ledger the operations produce, the summary counts every
    submitted transaction once, as mined or as pending; [total_blocks] is
    the next block number and at least 1; [latest_block] is the block
    numbered [total_blocks - 1]; and mining moves transactions from
    pending to mined without changing their total. *)
Theorem reachable_ledger_summary (log : list transaction) (l : ledger) :
  reaches log l ->
  let s := get_ledger_summary l in
  total_transactions s + summary_pending_transactions s = Z.of_nat (length log) /\
  summary_total_blocks s = get_next_block_number l /\
  1 <= summary_total_blocks s /\
  (exists b, latest_block s = Some b /\ block_number b = summary_total_blocks s - 1) /\
  (forall fuel now r l',
     mine_block fuel now l = Some (r, l') ->
     total_transactions (get_ledger_summary l')
     + summary_pending_transactions (get_ledger_summary l')
     = total_transactions s + summary_pending_transactions s).
Proof.
  intros Hr s. destruct (reaches_invariant log l Hr) as [(_ & Hg & Hnum & Hlink) Hlog].
  assert (Htot : forall bs : list block,
            fold_left Z.add (map (fun b => Z.of_nat (length (transactions b))) bs) 0
            = Z.of_nat (length (flat_map transactions bs))).
  { intros bs. rewrite fold_left_Zadd. induction bs as [|b bs IH]; simpl; [done|].
    rewrite length_app. lia. }
  assert (Hcount : forall log' l0, reaches log' l0 ->
            total_transactions (get_ledger_summary l0)
            + summary_pending_transactions (get_ledger_summary l0)
            = Z.of_nat (length log')).
  { intros log' l0 Hr0. destruct (reaches_invariant log' l0 Hr0) as [_ Hlog0].
    unfold get_ledger_summary. cbn [total_transactions summary_pending_transactions].
    rewrite Htot, <- Hlog0, length_app. lia. }
  split; [by apply Hcount|]. split; [done|].
  destruct Hg as (g & rest & Hc & _).
  split; [unfold s; simpl; rewrite Hc; simpl; lia|]. split.
  - unfold s. cbn [latest_block summary_total_blocks get_ledger_summary].
    destruct (last (chain l)) as [b|] eqn:El.
    + exists b. split; [done|]. rewrite last_lookup in El.
      destruct (Hnum _ _ El) as [-> _]. rewrite Hc. simpl length. lia.
    + apply last_None in El. by rewrite El in Hc.
  - intros fuel now r l' Hm.
    rewrite (Hcount log l' (reaches_mine _ _ _ _ _ _ Hr Hm)). symmetry. by apply Hcount.
Qed.

Lemma reachable_ledger_summary_witness :
  reaches [Example.tx1; Example.tx2] Example.sealed2 /\
  total_transactions (get_ledger_summary Example.sealed2)
  + summary_pending_transactions (get_ledger_summary Example.sealed2) = 2.
Proof.
  split; [exact reaches_sealed2|].
  exact (proj1 (reachable_ledger_summary _ _ reaches_sealed2)).
Defined.

End ReachableLedgers.

Section MiningEffect.
Import BlockchainLedger.

(** X5. What a finished [mine_block] does to a ledger the operations produce:
    with nothing pending it returns [None] and changes nothing; otherwise
    it appends one block holding exactly the pending transactions,
    numbered with the old chain length, stamped with the clock, linked to
    the hash of the last block, empties the pending list, keeps the
    difficulty, and [get_block] finds the new block under its number. *)
Theorem mine_block_effect (log : list transaction) (l l' : ledger)
    (fuel : nat) (now : string) (r : res (option block)) :
  reaches log l ->
  mine_block fuel now l = Some (r, l') ->
  (pending_transactions l = [] /\ r = Ok None /\ l' = l) \/
  (exists b,
     pending_transactions l <> [] /\
     r = Ok (Some b) /\
     chain l' = chain l ++ [b] /\
     pending_transactions l' = [] /\
     difficulty l' = difficulty l /\
     transactions b = pending_transactions l /\
     timestamp b = now /\
     block_number b = get_next_block_number l /\
     get_next_block_number l' = get_next_block_number l + 1 /\
     Some (previous_hash b) = hash <$> last (chain l) /\
     get_block l' (block_number b) = Ok (Some b)).
Proof.
  intros Hr Hm. destruct (reaches_invariant log l Hr) as [(_ & (g & rest & Hc & _) & _) _].
  destruct (mine_block_cases _ _ _ _ _ Hm)
    as [(-> & Hp & ->)|[(_ & Hnil & _)|(lb & h & Hne & Hlast & _ & -> & ->)]].
  - by left.
  - by rewrite Hnil in Hc.
  - right. eexists. split; [done|]. split; [reflexivity|]. cbn [chain pending_transactions
      difficulty transactions timestamp block_number previous_hash]. repeat split.
    + unfold get_next_block_number. cbn [chain]. rewrite length_app. simpl. lia.
    + by rewrite Hlast.
    + destruct (get_block_in_range
                  (Ledger (chain l ++ [Block (Z.of_nat (length (chain l))) now
                                         (pending_transactions l) (hash lb) (Some h) 0])
                          [] (difficulty l))
                  (Z.of_nat (length (chain l)))) as (b & Hb & ->).
      { cbn [chain]. rewrite length_app. simpl. lia. }
      cbn [chain] in Hb. rewrite Nat2Z.id, lookup_app_r, Nat.sub_diag in Hb by lia.
      by injection Hb as <-.
Qed.

Lemma mine_block_effect_witness :
  reaches [Example.tx1] Example.pending1 /\
  mine_block 0 "2024-01-01T00:05:00.000098" Example.pending1
  = Some (Ok (Some Example.block1), Example.sealed1) /\
  chain Example.sealed1 = chain Example.pending1 ++ [Example.block1].
Proof.
  assert (Hr : reaches [Example.tx1] Example.pending1).
  { pose proof (reaches_init "2024-01-01T00:00:00") as H0. rewrite example_fresh in H0.
    pose proof (reaches_add _ _ "2024-01-01T00:01:00" "2024-01-01T00:01:00.000012"
                  "71ba379fb295ca37754deadd175c747b02b0350cca98776ca8bcf3b87bde8abf" 7
                  "City Hospital" H0) as H1.
    rewrite example_pending1 in H1. exact H1. }
  split; [exact Hr|]. split; [exact example_sealed1|].
  destruct (mine_block_effect _ _ _ _ _ _ Hr example_sealed1)
    as [(Hp & _)|(b & _ & Hb & Hc & _)]; [discriminate|].
  injection Hb as <-. exact Hc.
Defined.

End MiningEffect.

Section RegistryFacts.
Import FederatedLearning.
Context {F : Type} `{Num F}.

Lemma fresh_record_ok (inst now : string) :
  record_ok (Participant (F:=F) inst "active" now 0 0 None None).
Proof. repeat split; done. Qed.

Lemma step_ok (o : orchestrator F) (c : Trace.call F) :
  state_ok o -> state_ok (Trace.step o c).
Proof.
  intros (Hps & Hg & Ht).
  destruct c as [now n alg|now id inst|now id acc|id]; simpl.
  - done.
  - unfold register_participant. destruct (participants o !! id) eqn:E; simpl; [done|].
    split; [|done]. apply map_Forall_insert_2; [apply fresh_record_ok|done].
  - unfold update_participant_stats. destruct (participants o !! id) as [p|] eqn:E;
      simpl; [|done].
    split; [|done]. apply map_Forall_insert_2; [|done].
    destruct (Hps id p E) as (Hs & Heq & Hpos & _).
    repeat split; simpl; try done; try lia.
  - unfold remove_participant. destruct (participants o !! id) eqn:E; simpl; [|done].
    split; [|done]. by apply map_Forall_delete.
Qed.

(** X12. Every sequence of coordinator calls keeps the registry consistent:
    each record is active, has as many rounds as updates, a count that
    is not negative, and a last accuracy and last update exactly when
    the count is not 0; no call sets the global model or the training
    history. A new coordinator starts in such a state. *)
Theorem registry_invariant (o : orchestrator F) (cs : list (Trace.call F)) :
  state_ok o ->
  state_ok (Trace.run cs o) /\
  state_ok (Trace.run cs init).
Proof.
  assert (Hrun : forall o', state_ok o' -> state_ok (Trace.run cs o')).
  { induction cs as [|c cs IH]; intros o' Ho'; simpl; [done|]. by apply IH, step_ok. }
  intros Ho. split; [by apply Hrun|]. apply Hrun. split; [|done].
  apply map_Forall_empty.
Qed.

Lemma step_counts (o : orchestrator F) (c : Trace.call F) (id : string) (p : participant F) :
  participants o !! id = Some p ->
  ~ Trace.removes id c ->
  exists p', participants (Trace.step o c) !! id = Some p' /\
    rounds_participated p'
    = rounds_participated p + Z.of_nat (length (updates_of id [c])) /\
    model_updates_submitted p'
    = model_updates_submitted p + Z.of_nat (length (updates_of id [c])) /\
    last_accuracy p' = match last (updates_of id [c]) with
                       | Some a => Some a
                       | None => last_accuracy p
                       end.
Proof.
  intros Hp Hc. destruct c as [now n alg|now id' inst|now id' acc|id']; simpl in *.
  - exists p. repeat split; try done; lia.
  - unfold register_participant. destruct (participants o !! id') eqn:E; simpl.
    + exists p. repeat split; try done; lia.
    + exists p. rewrite lookup_insert_ne by (intros ->; congruence).
      repeat split; try done; lia.
  - unfold update_participant_stats, updates_of. cbn [omap list_omap].
    destruct (participants o !! id') as [q|] eqn:E; simpl.
    + case_bool_decide as Hid.
      * subst id'. rewrite lookup_insert_eq. eexists. split; [done|].
        rewrite Hp in E. injection E as <-. simpl. repeat split; lia.
      * rewrite lookup_insert_ne by done. exists p. simpl. repeat split; try done; lia.
    + case_bool_decide as Hid; [congruence|].
      exists p. simpl. repeat split; try done; lia.
  - unfold remove_participant. destruct (participants o !! id') eqn:E; simpl.
    + rewrite lookup_delete_ne by done. exists p. repeat split; try done; lia.
    + exists p. repeat split; try done; lia.
Qed.

(** X13. While a participant is not removed, its two counters grow by exactly
    the number of [update_participant_stats] calls made for it, whatever
    other calls come in between, and its last accuracy is the accuracy
    of the latest of those calls. *)
Theorem participant_update_count (cs : list (Trace.call F)) :
  forall (o : orchestrator F) (id : string) (p : participant F),
  participants o !! id = Some p ->
  Forall (fun c => ~ Trace.removes id c) cs ->
  exists p', participants (Trace.run cs o) !! id = Some p' /\
    rounds_participated p'
    = rounds_participated p + Z.of_nat (length (updates_of id cs)) /\
    model_updates_submitted p'
    = model_updates_submitted p + Z.of_nat (length (updates_of id cs)) /\
    last_accuracy p' = match last (updates_of id cs) with
                       | Some a => Some a
                       | None => last_accuracy p
                       end.
Proof.
  induction cs as [|c cs IH]; intros o id p Hp Hall.
  - exists p. simpl. repeat split; try done; lia.
  - apply Forall_cons in Hall as [Hc Hall].
    destruct (step_counts o c id p Hp Hc) as (p1 & Hp1 & Hr1 & Hm1 & Ha1).
    destruct (IH _ _ _ Hp1 Hall) as (p2 & Hp2 & Hr2 & Hm2 & Ha2).
    exists p2. split; [exact Hp2|].
    change (c :: cs) with ([c] ++ cs). unfold updates_of in *.
    rewrite omap_app, length_app.
    split; [lia|]. split; [lia|].
    rewrite Ha2, Ha1. rewrite last_app.
    by destruct (last (omap _ cs)).
Qed.

(** X14. After [remove_participant] the identifier is unknown: an update for
    it raises [ValueError], removing it again reports that it was not
    found, registering it succeeds; the other records and the round
    number are untouched. *)
Theorem removed_participant_unknown (o : orchestrator F) (id now : string) (accuracy : F) :
  let o' := snd (remove_participant id o) in
  update_participant_stats now id accuracy o' = (Raise ValueError, o') /\
  remove_participant id o' = (removal_not_found, o') /\
  (forall now' inst, fst (register_participant now' id inst o') = registered id) /\
  (forall id', id' <> id -> participants o' !! id' = participants o !! id') /\
  current_round o' = current_round o.
Proof.
  intros o'.
  assert (Hgone : participants o' !! id = None).
  { unfold o', remove_participant. destruct (participants o !! id) eqn:E; simpl.
    - apply lookup_delete_eq.
    - done. }
  split; [unfold update_participant_stats; by rewrite Hgone|].
  split; [unfold remove_participant at 1; by rewrite Hgone|].
  split; [intros now' inst; unfold register_participant; by rewrite Hgone|].
  split.
  - intros id' Hne. unfold o', remove_participant.
    destruct (participants o !! id) eqn:E; simpl; [|done]. by rewrite lookup_delete_ne.
  - unfold o', remove_participant. by destruct (participants o !! id).
Qed.

(** X15. [register_participant] adds one fresh record for an unknown
    identifier and changes nothing for a known one; other records are
    untouched. [get_participant_status] then returns the record of that
    identifier, except for the empty identifier, which is falsy and gets
    the overview of all participants instead. *)
Theorem register_then_status (o : orchestrator F) (now id inst : string) :
  let r := fst (register_participant now id inst o) in
  let o1 := snd (register_participant now id inst o) in
  (participants o !! id = None ->
     r = registered id /\
     participants o1 !! id = Some (Participant inst "active" now 0 0 None None) /\
     size (participants o1) = S (size (participants o))) /\
  (forall p, participants o !! id = Some p -> r = already_registered /\ o1 = o) /\
  (forall id', id' <> id -> participants o1 !! id' = participants o !! id') /\
  (id <> EmptyString ->
     exists p, participants o1 !! id = Some p /\
               get_participant_status (Some id) o1 = one_participant p) /\
  (id = EmptyString ->
     get_participant_status (Some id) o1
     = overview (Z.of_nat (size (participants o1))) (participants o1) (current_round o1)).
Proof.
  intros r o1. unfold r, o1, register_participant.
  destruct (participants o !! id) as [p|] eqn:E; simpl.
  - split; [done|]. split; [by intros ? [= <-]|]. split; [done|]. split.
    + intros Hid. exists p. split; [done|]. unfold get_participant_status.
      rewrite bool_decide_eq_false_2 by done. by rewrite E.
    + intros ->. reflexivity.
  - split.
    { intros _. split; [done|]. split; [apply lookup_insert_eq|].
      by apply map_size_insert_None. }
    split; [done|]. split; [intros id' Hne; by rewrite lookup_insert_ne|]. split.
    + intros Hid. eexists. split; [apply lookup_insert_eq|]. unfold get_participant_status.
      rewrite bool_decide_eq_false_2 by done. simpl. by rewrite lookup_insert_eq.
    + intros ->. reflexivity.
Qed.

(** X16. On an empty history [check_convergence] reports that there is not
    enough history when [patience] is positive, and otherwise raises
    [IndexError] at [accuracy_history[-1]], whatever the threshold. *)
Theorem check_convergence_empty_history (threshold : F) (patience : Z) :
  check_convergence [] threshold patience
  = if 0 <? patience then Ok not_enough_history else Raise IndexError.
Proof.
  unfold check_convergence. change (Z.of_nat (length (@nil F))) with 0.
  destruct (Z.ltb_spec 0 patience) as [Hp|Hp]; [done|].
  rewrite recent_improvements_spec by (simpl; lia).
  rewrite res_bind_Ok.
  unfold Spec.recent_deltas, Spec.deltas. simpl. by destruct (fltb fzero threshold).
Qed.

(** X17. When the window holds no improvement (patience 0 or less, or a
    single reading with patience at most 1) the maximum defaults to 0: a
    non-empty history is declared converged exactly when the threshold is
    positive. *)
Theorem check_convergence_without_deltas
    (history : list F) (threshold : F) (patience : Z) (x : F) :
  last history = Some x ->
  patience <= 0 \/ (length history = 1%nat /\ patience <= 1) ->
  check_convergence history threshold patience
  = Ok (if fltb fzero threshold
        then model_converged (Z.of_nat (length history)) x
        else still_improving fzero x).
Proof.
  intros Hlast Hcase.
  assert (Hne : history <> []) by (intros ->; discriminate).
  assert (Hp : patience <= Z.of_nat (length history)).
  { destruct Hcase as [?|[-> ?]]; simpl; lia. }
  destruct (check_convergence_long history threshold patience Hp Hne) as (acc & Hacc & ->).
  assert (acc = x) by congruence. subst acc.
  assert (Hd : Spec.recent_deltas history patience = []).
  { apply length_zero_iff_nil. rewrite recent_deltas_length.
    destruct Hcase as [?|[Hl ?]]; [lia|]. rewrite Hl. simpl. lia. }
  rewrite Hd. done.
Qed.

End RegistryFacts.

Lemma registry_invariant_witness :
  state_ok (F:=float) FederatedLearning.init /\
  state_ok (Trace.run
              [Trace.Register "2024-01-01T00:00:00" "hospital-a" "City Hospital";
               Trace.UpdateStats "2024-01-02T00:00:00" "hospital-a" 0.9%float]
              (FederatedLearning.init (F:=float))).
Proof.
  assert (H0 : state_ok (F:=float) FederatedLearning.init).
  { split; [apply map_Forall_empty|done]. }
  split; [exact H0|].
  exact (proj1 (registry_invariant FederatedLearning.init _ H0)).
Defined.

Lemma participant_update_count_witness :
  let o := snd (FederatedLearning.register_participant "2024-01-01T00:00:00" "hospital-a"
                  "City Hospital" (FederatedLearning.init (F:=float))) in
  let cs := [Trace.UpdateStats "2024-01-02T00:00:00" "hospital-a" 0.8%float;
             Trace.UpdateStats "2024-01-03T00:00:00" "hospital-b" 0.5%float;
             Trace.UpdateStats "2024-01-04T00:00:00" "hospital-a" 0.9%float] in
  exists p', FederatedLearning.participants (Trace.run cs o) !! "hospital-a"%string = Some p' /\
             FederatedLearning.rounds_participated p' = 2 /\
             FederatedLearning.last_accuracy p' = Some 0.9%float.
Proof.
  intros o cs.
  destruct (participant_update_count cs o "hospital-a"
              (FederatedLearning.Participant "City Hospital" "active" "2024-01-01T00:00:00"
                 0 0 None None))
    as (p' & Hp' & Hr & _ & Ha).
  - reflexivity.
  - repeat constructor; simpl; tauto.
  - exists p'. split; [exact Hp'|]. split; [exact Hr|exact Ha].
Defined.

Lemma check_convergence_without_deltas_witness :
  last [0.5%float] = Some 0.5%float /\
  FederatedLearning.check_convergence [0.5%float] 0.01%float 1
  = Ok (FederatedLearning.model_converged 1 0.5%float).
Proof.
  split; [reflexivity|].
  rewrite (check_convergence_without_deltas [0.5%float] 0.01%float 1 0.5%float);
    [reflexivity|reflexivity|right; split; [reflexivity|lia]].
Defined.

Section AveragingShape.
Import FederatedLearning.
Context {F : Type} `{Num F}.

Lemma fold_left_zip_length (f : F -> F -> F) (rs : list (list F)) : forall acc,
  Forall (fun r => length r = length acc) rs ->
  length (fold_left (zip_with f) rs acc) = length acc.
Proof.
  induction rs as [|r rs IH]; intros acc Hall; simpl; [done|].
  apply Forall_cons in Hall as [Hr Hall].
  rewrite IH; rewrite length_zip_with, Hr, Nat.min_id; [done|].
  eapply Forall_impl; [exact Hall|]. simpl. intros; lia.
Qed.

Lemma np_array_Ok (rows rows' : list (list F)) :
  np_array rows = Ok rows' ->
  rows' = rows /\
  match rows with
  | [] => True
  | r :: rs => Forall (fun r' => length r' = length r) rs
  end.
Proof.
  unfold np_array. destruct rows as [|r rs]; [by intros [= <-]|].
  destruct (forallb _ rs) eqn:Ef; [|discriminate]. intros [= <-]. split; [done|].
  apply Forall_forall. intros x Hx. rewrite forallb_forall in Ef.
  apply Nat.eqb_eq, Ef. by apply list_elem_of_In.
Qed.

(** X18. When [federated_averaging] returns, the input was not empty, all its
    vectors had the length of the first, the result has that length, and
    weights, if given, were as many as the vectors. Every other input
    raises. *)
Theorem federated_averaging_shape
    (model_weights_list : list (list F)) (weights : option (list F)) (r : list F) :
  federated_averaging model_weights_list weights = Ok r ->
  exists v rest,
    model_weights_list = v :: rest /\
    Forall (fun v' => length v' = length v) rest /\
    length r = length v /\
    (forall ws, weights = Some ws -> length ws = length model_weights_list).
Proof.
  unfold federated_averaging. destruct model_weights_list as [|v rest]; [discriminate|].
  destruct (np_array (v :: rest)) as [rows|] eqn:Ea; [|discriminate].
  apply np_array_Ok in Ea as [-> Hrect]. rewrite res_bind_Ok.
  intros Hr. exists v, rest. split; [done|]. split; [done|].
  destruct weights as [ws|].
  - unfold np_average_axis0 in Hr. rewrite length_map in Hr.
    destruct (Nat.eqb_spec (length ws) (length (v :: rest))) as [Hlen|Hlen];
      [|discriminate]. simpl negb in Hr. cbv iota in Hr.
    destruct (feqb _ fzero); [discriminate|]. injection Hr as <-.
    split; [|by intros ? [= <-]].
    rewrite length_map. destruct ws as [|w ws]; [discriminate|].
    cbn [map zip_with np_sum_axis0].
    rewrite fold_left_zip_length; [by rewrite length_map|].
    apply Forall_forall. intros row Hrow.
    apply list_elem_of_lookup in Hrow as [i Hi]. rewrite lookup_zip_with in Hi.
    destruct (rest !! i) as [vi|] eqn:Evi; [|done]. simpl in Hi.
    destruct (map _ ws !! i); [|done]. simpl in Hi. injection Hi as <-.
    rewrite !length_map. rewrite Forall_forall in Hrect. apply Hrect.
    by eapply list_elem_of_lookup_2.
  - injection Hr as <-. split; [|done].
    unfold np_mean_axis0. rewrite length_map. simpl.
    by apply fold_left_zip_length.
Qed.

End AveragingShape.

Lemma federated_averaging_shape_witness :
  FederatedLearning.federated_averaging [[1.0; 2.0]; [3.0; 5.0]]%float None = Ok [2.0; 3.5]%float /\
  exists v rest, [[1.0; 2.0]; [3.0; 5.0]]%float = v :: rest /\ length [2.0; 3.5]%float = length v.
Proof.
  assert (Hrun : FederatedLearning.federated_averaging [[1.0; 2.0]; [3.0; 5.0]]%float None = Ok [2.0; 3.5]%float)
    by (vm_compute; reflexivity).
  split; [exact Hrun|].
  destruct (federated_averaging_shape _ _ _ Hrun) as (v & rest & Hv & _ & Hl & _).
  exists v, rest. split; [exact Hv|exact Hl].
Defined.


Section AveragingExact.
Import FederatedLearning.
Local Open Scope Qc_scope.

Lemma Qsum_scale (c : Qc) (l : list Qc) :
  Qsum (map (fun x => c * x) l) = c * Qsum l.
Proof.
  induction l as [|x l IH]; simpl; [ring|]. rewrite IH. ring.
Qed.



Lemma weighted_sum_uniform (q : Qc) (j : nat) : forall (rows : list (list Qc)),
  fold_right Qcplus (Q2Qc 0)
    (zip_with (fun w v => default (Q2Qc 0) (v !! j) * w) (replicate (length rows) q) rows)
  = Qsum (column j rows) * q.
Proof.
  induction rows as [|r rows IH]; simpl; [ring|]. rewrite IH. ring.
Qed.

Lemma of_int_mul (a b : Z) :
  Q2Qc (inject_Z (a * b)) = Q2Qc (inject_Z a) * Q2Qc (inject_Z b).
Proof.
  apply Qc_is_canon. unfold Qcmult, Q2Qc. cbn [this].
  rewrite !Qred_correct, inject_Z_mult. reflexivity.
Qed.

Lemma map_replicate {A B} (f : A -> B) (k : nat) (x : A) :
  map f (replicate k x) = replicate k (f x).
Proof.
  induction k as [|k IH]; simpl; [done|]. by rewrite IH.
Qed.

Lemma sum_replicate (n : nat) (s : Z) :
  fold_left Z.add (replicate n s) 0%Z = (Z.of_nat n * s)%Z.
Proof.
  rewrite fold_left_Zadd. induction n as [|n IH]; simpl replicate; simpl fold_right; lia.
Qed.



End AveragingExact.

Section HashFacts.
Import SMPCEngine.
Context {J Obj : Type}.
Context (json_dumps_sorted : J -> string) (py_str : Obj -> string).

Lemma substring_length (n : nat) : forall s,
  String.length (String.substring 0 n s) = Nat.min n (String.length s).
Proof.
  induction n as [|n IH]; intros [|c s]; simpl; try done. by rewrite IH.
Qed.

Lemma substring_hex (n : nat) : forall s,
  forallb is_hex_char (list_ascii_of_string s) = true ->
  forallb is_hex_char (list_ascii_of_string (String.substring 0 n s)) = true.
Proof.
  induction n as [|n IH]; intros [|c s]; simpl; try done.
  intros [Hc Hs]%andb_true_iff. rewrite Hc. simpl. by apply IH.
Qed.

(** X21. [generate_hash] always yields 64 lower-case hexadecimal characters;
    [verify_hash] accepts exactly that string, so anything that is not
    such a digest is rejected; and a dictionary or list hashes like the
    string of its sorted JSON text. *)
Theorem verify_hash_digest (d : data J Obj) (expected_hash : string) :
  is_digest (generate_hash json_dumps_sorted py_str d) /\
  (verify_hash json_dumps_sorted py_str d expected_hash = true <->
   expected_hash = generate_hash json_dumps_sorted py_str d) /\
  (~ is_digest expected_hash ->
   verify_hash json_dumps_sorted py_str d expected_hash = false) /\
  (forall j, generate_hash json_dumps_sorted py_str (DStr (json_dumps_sorted j))
             = generate_hash json_dumps_sorted py_str (DJson j)).
Proof.
  assert (Hd : is_digest (generate_hash json_dumps_sorted py_str d))
    by apply hexdigest_is_digest.
  assert (Hiff : verify_hash json_dumps_sorted py_str d expected_hash = true <->
                 expected_hash = generate_hash json_dumps_sorted py_str d).
  { unfold verify_hash. rewrite bool_decide_eq_true. split; congruence. }
  split; [exact Hd|]. split; [exact Hiff|]. split; [|done].
  intros Hn. apply not_true_is_false. intros Hv. apply Hn.
  apply Hiff in Hv. by rewrite Hv.
Qed.

(** X22. [create_zero_knowledge_proof] echoes the commitment, always discloses
    the hash of the data, which is the commitment [create_commitment]
    gives for it, is valid exactly when the two agree (the answer of
    [verify_hash]), and stamps the proof with 16 hexadecimal characters
    drawn independently of the data. *)
Theorem zero_knowledge_proof_spec (urandom : string) (d : data J Obj) (commitment : string) :
  let proof := create_zero_knowledge_proof json_dumps_sorted py_str urandom d commitment in
  proof_commitment proof = commitment /\
  proof_data_hash proof = create_commitment json_dumps_sorted py_str d /\
  (proof_valid proof = true <->
   commitment = create_commitment json_dumps_sorted py_str d) /\
  proof_valid proof = verify_hash json_dumps_sorted py_str d commitment /\
  String.length (proof_timestamp proof) = 16%nat /\
  forallb is_hex_char (list_ascii_of_string (proof_timestamp proof)) = true.
Proof.
  cbn zeta. unfold create_zero_knowledge_proof, create_commitment.
  cbn [proof_commitment proof_data_hash proof_valid proof_timestamp].
  destruct (hexdigest_is_digest urandom) as [Hlen Hhex].
  split; [done|]. split; [done|]. split.
  { rewrite bool_decide_eq_true. split; congruence. }
  split; [done|]. split.
  - rewrite substring_length, Hlen. reflexivity.
  - by apply substring_hex.
Qed.

End HashFacts.

Section AggregationNames.
Import SMPCEngine.
Context {F : Type} `{Num F} {O : Type}.
Context (float_of_other : O -> res F).

Lemma param_values_agree name (ps ps' : list (gmap string (pval F O))) :
  Forall2 (fun p p' => p !! name = p' !! name) ps ps' ->
  param_values float_of_other name ps = param_values float_of_other name ps'.
Proof.
  induction 1 as [|p p' ps ps' Hp _ IH]; simpl; [done|]. by rewrite Hp, IH.
Qed.

(** X23. [_average_parameters] reads the later payloads only under the names
    of the first one: two lists of later payloads that agree under those
    names give the same outcome, whatever else they hold. *)
Theorem average_parameters_reads_first_names
    (first : gmap string (pval F O)) (rest rest' : list (gmap string (pval F O))) :
  Forall2 (fun p p' => forall name, is_Some (first !! name) -> p !! name = p' !! name)
          rest rest' ->
  _average_parameters float_of_other (first :: rest)
  = _average_parameters float_of_other (first :: rest').
Proof.
  intros Hagree. unfold _average_parameters. f_equal. apply map_eq. intros name.
  rewrite !map_lookup_imap. destruct (first !! name) as [v|] eqn:Ev; [|done].
  simpl. f_equal. unfold average_param.
  rewrite (param_values_agree name (first :: rest) (first :: rest')); [done|].
  constructor; [done|]. eapply Forall2_impl; [exact Hagree|].
  intros p p' Hp. apply Hp. by rewrite Ev.
Qed.

Lemma param_values_poisoned name (ps : list (gmap string (pval F O))) p o x :
  p ∈ ps -> p !! name = Some (POther o) -> float_of_other o = Raise x ->
  is_ok (param_values float_of_other name ps) = false.
Proof.
  intros Hin Hp Ho. induction ps as [|q ps IH]; [by apply elem_of_nil in Hin|].
  apply elem_of_cons in Hin as [<-|Hin].
  - simpl. rewrite Hp, Ho. reflexivity.
  - specialize (IH Hin). simpl. destruct (q !! name) as [v|]; [|exact IH].
    destruct (param_values float_of_other name ps); [discriminate|].
    by destruct v as [n|l|o']; [| |destruct (float_of_other o')].
Qed.

(** X24. One value [float] cannot convert, under a name of the first payload
    and in any payload, makes [_average_parameters] raise: no partial
    result is returned for the other names. *)
Theorem average_parameters_poisoned
    (first : gmap string (pval F O)) (rest : list (gmap string (pval F O)))
    (name : string) (p : gmap string (pval F O)) (o : O) (x : exn) :
  is_Some (first !! name) ->
  p ∈ first :: rest ->
  p !! name = Some (POther o) ->
  float_of_other o = Raise x ->
  exists x', _average_parameters float_of_other (first :: rest) = Raise x'.
Proof.
  intros Hfirst Hin Hp Ho.
  destruct (_average_parameters float_of_other (first :: rest)) as [m|x'] eqn:Ea;
    [|by exists x'].
  apply average_parameters_Ok in Ea as [_ Hnames].
  destruct (Hnames name Hfirst) as (a & Ha & _).
  pose proof (param_values_poisoned name (first :: rest) p o x Hin Hp Ho) as Hbad.
  unfold average_param in Ha.
  destruct (param_values float_of_other name (first :: rest)); discriminate.
Qed.

End AggregationNames.

Lemma average_parameters_reads_first_names_witness :
  let later : gmap string (SMPCEngine.pval float string) :=
    {[ "w"%string := SMPCEngine.PNum (SMPCEngine.NInt 3);
       "b"%string := SMPCEngine.POther "none"%string ]} in
  let later' : gmap string (SMPCEngine.pval float string) :=
    {[ "w"%string := SMPCEngine.PNum (SMPCEngine.NInt 3) ]} in
  Forall2 (fun p p' : gmap string (SMPCEngine.pval float string) =>
             forall name, is_Some (only_w 1.0%float !! name) -> p !! name = p' !! name)
          [later] [later'] /\
  SMPCEngine._average_parameters no_float [only_w 1.0%float; later]
  = SMPCEngine._average_parameters no_float [only_w 1.0%float; later'].
Proof.
  intros later later'.
  assert (Hagree : Forall2 (fun p p' : gmap string (SMPCEngine.pval float string) =>
                     forall name, is_Some (only_w 1.0%float !! name) ->
                                  p !! name = p' !! name) [later] [later']).
  { repeat constructor. intros name [v Hv].
    unfold only_w in Hv. apply lookup_singleton_Some in Hv as [<- _]. reflexivity. }
  split; [exact Hagree|].
  exact (average_parameters_reads_first_names no_float (only_w 1.0%float) _ _ Hagree).
Defined.

Lemma average_parameters_poisoned_witness :
  exists x', SMPCEngine._average_parameters no_float
               [ only_w 1.0%float; {[ "w"%string := SMPCEngine.POther "n/a"%string ]} ]
             = Raise x'.
Proof.
  apply (average_parameters_poisoned no_float (only_w 1.0%float)
           [ {[ "w"%string := SMPCEngine.POther "n/a"%string ]} ] "w"%string
           {[ "w"%string := SMPCEngine.POther "n/a"%string ]} "n/a"%string ValueError).
  - exists (SMPCEngine.PNum (SMPCEngine.NFloat 1.0%float)). reflexivity.
  - apply elem_of_cons. right. apply elem_of_cons. by left.
  - reflexivity.
  - reflexivity.
Defined.

Section NoiseOther.
Import SMPCEngine.
Context {F : Type} `{Num F} {O : Type}.
Context (L : library (gmap string (pval F O)) F).

Lemma noisy_items_other scale (items : list (string * pval F O)) (g : rng L) :
  Forall (fun kv => exists o, snd kv = POther o) items ->
  noisy_items L scale items g = Ok (items, g).
Proof.
  induction 1 as [|[k v] items [o Ho] _ IH]; simpl; [done|].
  simpl in Ho. subst v. rewrite !res_bind_Ok. cbv beta iota.
  rewrite IH. reflexivity.
Qed.

(** X25. On a mapping with no number and no list
    [add_differential_privacy_noise] returns the mapping unchanged and
    draws nothing from the generator; with [epsilon] equal to 0 it raises
    [ZeroDivisionError] even though there is nothing to perturb. *)
Theorem noise_without_numbers
    (parameters : gmap string (pval F O)) (epsilon sensitivity : F) (g : rng L) :
  map_Forall (fun _ v => exists o, v = POther o) parameters ->
  add_differential_privacy_noise L parameters epsilon sensitivity g
  = if feqb epsilon fzero then Raise ZeroDivisionError else Ok (parameters, g).
Proof.
  intros Hall. unfold add_differential_privacy_noise, py_truediv.
  destruct (feqb epsilon fzero); [done|]. rewrite res_bind_Ok.
  rewrite noisy_items_other.
  - rewrite res_bind_Ok. cbv beta iota. by rewrite list_to_map_to_list.
  - apply Forall_forall. intros [k v] Hkv. apply elem_of_map_to_list in Hkv.
    exact (Hall k v Hkv).
Qed.

End NoiseOther.

Lemma noise_without_numbers_witness :
  map_Forall (fun (_ : string) (v : SMPCEngine.pval float string) =>
                exists o, v = SMPCEngine.POther o)
             ({[ "tag"%string := SMPCEngine.POther "layer-1"%string ]}
              : gmap string (SMPCEngine.pval float string)) /\
  SMPCEngine.add_differential_privacy_noise L64
    {[ "tag"%string := SMPCEngine.POther "layer-1"%string ]} 0.5%float 1.0%float [0.25%float]
  = Ok ({[ "tag"%string := SMPCEngine.POther "layer-1"%string ]}, [0.25%float]).
Proof.
  assert (Hall : map_Forall (fun (_ : string) (v : SMPCEngine.pval float string) =>
                               exists o, v = SMPCEngine.POther o)
                   ({[ "tag"%string := SMPCEngine.POther "layer-1"%string ]}
                    : gmap string (SMPCEngine.pval float string))).
  { apply map_Forall_singleton. by exists "layer-1"%string. }
  split; [exact Hall|].
  exact (noise_without_numbers L64 _ 0.5%float 1.0%float [0.25%float] Hall).
Defined.

Section EncryptedAggregation.
Import SMPCEngine.
Context {F : Type} `{Num F} {O : Type}.
Context (L : library (gmap string (pval F O)) F).
Context (float_of_other : O -> res F).

(** X26. Encrypting and then aggregating is averaging the plaintexts: when
    the libraries invert each other and every payload was produced by
    [encrypt_parameters] on this engine from a finite numeric mapping,
    [secure_aggregate] gives the outcome of [_average_parameters] on the
    mappings, whatever the encryption drew, and leaves the engine as it
    was. *)
Theorem secure_aggregate_of_encrypted
    (e : engine L) (payloads : list (text L)) (ps : list (gmap string (pval F O))) :
  Contract.holds L ->
  ps <> [] ->
  Forall Contract.numeric_params ps ->
  Forall2 (fun c p => exists r, encrypt_parameters L r p e = (Ok c, e)) payloads ps ->
  secure_aggregate L float_of_other payloads e
  = (_average_parameters float_of_other ps, e).
Proof.
  intros HL Hne Hnum Henc. apply secure_aggregate_decrypted.
  - intros ->. apply Forall2_nil_inv_l in Henc. done.
  - clear Hne. induction Henc as [|c p cs ps' [r Hr] _ IH]; [constructor|].
    apply Forall_cons in Hnum as [Hp Hnum]. constructor; [|by apply IH].
    rewrite encrypt_parameters_eq in Hr. injection Hr as <-.
    by apply decrypt_ciphertext.
Qed.

End EncryptedAggregation.

Lemma secure_aggregate_of_encrypted_witness :
  SMPCEngine.secure_aggregate L64 no_float
    [ Contract.ciphertext L64 engine64 1%nat (only_w 1.0%float);
      Contract.ciphertext L64 engine64 2%nat (only_w 3.0%float) ] engine64
  = (SMPCEngine._average_parameters no_float [ only_w 1.0%float; only_w 3.0%float ],
     engine64).
Proof.
  apply (secure_aggregate_of_encrypted L64 no_float engine64).
  - apply symbolic_holds.
  - discriminate.
  - repeat constructor; by apply only_w_numeric.
  - repeat constructor; [by exists 1%nat|by exists 2%nat].
Defined.
